(** * Instagram metrics dashboard: the batch route and the sort/export logic

    A shallow embedding of
    - [src/web/src/app/api/analyze/route.ts] (the [POST] handler that
      normalises the submitted handles, fans out one resolver call per
      distinct handle and partitions the settled results), and
    - [src/web/src/components/dashboard.tsx] (the sort comparator of
      [sortedRows], [formatCellForExport], [exportCsv], [formatSummary]).

    JavaScript strings are sequences of UTF-16 code units; they are modelled
    as lists of code units ([list N]).  JavaScript numbers that reach the
    dashboard come out of a JSON document, hence are finite doubles; a finite
    double is a rational number and is modelled by its exact value in [Q]. *)

From Stdlib Require Import ZArith NArith QArith Qabs Qround Lia Lqa.
From Stdlib Require Import String Ascii.
From stdpp Require Import base decidable option list sets gmap sorting.

Local Open Scope N_scope.
Local Open Scope list_scope.

(** ** JavaScript strings *)

Abbreviation jsstring := (list N).

(** The code units of an ASCII literal. *)
Definition js (s : string) : jsstring :=
  N_of_ascii <$> list_ascii_of_string s.

(** [WhiteSpace] and [LineTerminator] code points of ECMAScript, the ones
    [String.prototype.trim] strips. *)
Definition isWhiteSpace (c : N) : bool :=
  (c =? 9) || (c =? 10) || (c =? 11) || (c =? 12) || (c =? 13) || (c =? 32)
  || (c =? 160) || (c =? 5760) || ((8192 <=? c) && (c <=? 8202))
  || (c =? 8232) || (c =? 8233) || (c =? 8239) || (c =? 8287)
  || (c =? 12288) || (c =? 65279).

Fixpoint dropWhile {A} (p : A -> bool) (l : list A) : list A :=
  match l with
  | [] => []
  | x :: l' => if p x then dropWhile p l' else l
  end.

Definition trimStart (s : jsstring) : jsstring := dropWhile isWhiteSpace s.
Definition trimEnd (s : jsstring) : jsstring :=
  reverse (dropWhile isWhiteSpace (reverse s)).
Definition trim (s : jsstring) : jsstring := trimEnd (trimStart s).

(** [Array.prototype.join]. *)
Fixpoint join (sep : jsstring) (parts : list jsstring) : jsstring :=
  match parts with
  | [] => []
  | [p] => p
  | p :: rest => p ++ sep ++ join sep rest
  end.

(** ** The metrics record *)

(** Modelled from the spec: the type [InstagramMetrics] is declared in
    [@/lib/socialblade], which is not part of the sources at hand.  The data
    model of the specification gives its fields: two strings, three
    non-negative integers or absent, a real or absent, two strings or absent.
    An absent value is JavaScript's [null], the value the comparator of
    [sortedRows] tests for. *)
Record InstagramMetrics := mkMetrics {
  displayName : jsstring;
  handle : jsstring;
  followers : option N;
  averageViews : option N;
  engagementRate : option Q;
  category : option jsstring;
  location : option jsstring;
  averageLikes : option N;
}.

(** ** [route.ts]: the batch aggregator *)

(** Modelled from the spec: the class [SocialbladeError] is declared in
    [@/lib/socialblade], which is not part of the sources at hand; the
    specification describes it as the provider error, which carries a
    human-readable message.  The reason a resolver promise is rejected with
    is read the way the handler reads it ([result.reason as Error]): whether
    it is an instance of [SocialbladeError], and its [message], empty when
    the reason has none. *)
Record Error := mkError {
  isSocialbladeError : bool;
  message : jsstring;
}.

(** An element of the array [Promise.allSettled] resolves to. *)
Inductive PromiseSettledResult :=
| fulfilled (value : InstagramMetrics)
| rejected (reason : Error).

Record ErrorEntry := mkErrorEntry {
  entry_handle : jsstring;
  entry_message : jsstring;
}.

(** [AnalyzeResponse]. *)
Record AnalyzeResponse := mkAnalyzeResponse {
  data : list InstagramMetrics;
  errors : list ErrorEntry;
}.

(** What [NextResponse.json] is given: the body and the status. *)
Inductive Body :=
| MessageBody (msg : jsstring)
| ResultBody (response : AnalyzeResponse).

Record Response := mkResponse {
  status : nat;
  body : Body;
}.

(** The ordered [Set] of strings: its elements in insertion order. *)
Definition Set_add (s : list jsstring) (x : jsstring) : list jsstring :=
  if decide (x ∈ s) then s else s ++ [x].

(** [new Set(iterable)] adds the elements one after the other; [Array.from]
    then lists them in insertion order. *)
Definition Set_from (l : list jsstring) : list jsstring := foldl Set_add [] l.

(** [Array.prototype.indexOf]: the first position of [x]. *)
Fixpoint indexOf (x : jsstring) (l : list jsstring) : option nat :=
  match l with
  | [] => None
  | y :: l' => if decide (x = y) then Some 0%nat else S <$> indexOf x l'
  end.

Section Analyze.

(** JSON numbers as the request parser yields them, and
    [Number::toString], on which the handler relies through [String]. *)
Variable number : Type.
Variable Number_toString : number -> jsstring.

(** The values a parsed request body is made of ([unknown] in the source). *)
#[warnings="-register-all"] Inductive JSValue :=
| JUndefined
| JNull
| JBool (b : bool)
| JNumber (x : number)
| JString (s : jsstring)
| JArray (items : list JSValue)
| JObject (fields : list (jsstring * JSValue)).

(** Whether a parsed object has an own property of the given name. *)
Definition hasOwn (fields : list (jsstring * JSValue)) (name : jsstring)
    : bool :=
  existsb (fun kv => bool_decide (fst kv = name)) fields.

(** [String(v)], that is [ToString]; [None] is a thrown [TypeError].  An
    array is its elements joined by a comma, [null] and [undefined] elements
    giving the empty string, and the conversion of an element that throws
    makes the conversion of the array throw.  An object of a parsed body
    inherits [Object.prototype.toString], unless it has an own property
    [toString]: no value of a JSON document is callable, [valueOf] gives
    back the object, and the conversion throws. *)
Fixpoint ToString (v : JSValue) : option jsstring :=
  match v with
  | JUndefined => Some (js "undefined")
  | JNull => Some (js "null")
  | JBool true => Some (js "true")
  | JBool false => Some (js "false")
  | JNumber x => Some (Number_toString x)
  | JString s => Some s
  | JArray items =>
      join (js ",") <$>
        (fix elements (l : list JSValue) : option (list jsstring) :=
           match l with
           | [] => Some []
           | e :: l' =>
               match (match e with
                      | JUndefined | JNull => Some []
                      | _ => ToString e
                      end) with
               | Some s => cons s <$> elements l'
               | None => None
               end
           end) items
  | JObject fields =>
      if hasOwn fields (js "toString") then None
      else Some (js "[object Object]")
  end.

(** [value ?? fallback]. *)
Definition nullish (value fallback : JSValue) : JSValue :=
  match value with
  | JUndefined | JNull => fallback
  | _ => value
  end.

(** [AnalyzeRequest]: [handles?: unknown]; [None] is a missing property.
    The parsed body is taken to be an object, as the type the handler casts
    it to says. *)
Record AnalyzeRequest := mkRequest {
  handles : option JSValue;
}.

(** The callback of [payload.handles.map]:
    [value => String(value ?? "").trim()]; it throws where [String] does. *)
Definition coerce (value : JSValue) : option jsstring :=
  trim <$> ToString (nullish value (JString [])).

(** [payload.handles.map(value => String(value ?? "").trim())
      .filter(value => value.length > 0)]; [map] calls its callback on the
    elements from left to right and lets what it throws through. *)
Definition tokens (items : list JSValue) : option (list jsstring) :=
  filter (fun value => (0 <? length value)%nat) <$> mapM coerce items.

Definition uniqueHandles (items : list JSValue) : option (list jsstring) :=
  Set_from <$> tokens items.

(** The resolver [fetchInstagramMetrics], seen through the outcome its
    promise settles with. *)
Variable fetchInstagramMetrics : jsstring -> PromiseSettledResult.

(** The handler runs in a monad that logs the handles the resolver is
    called with, in call order. *)
Definition M (A : Type) : Type := list jsstring -> A * list jsstring.
Definition ret {A} (a : A) : M A := fun log => (a, log).
Definition bind {A B} (m : M A) (k : A -> M B) : M B :=
  fun log => let (a, log') := m log in k a log'.
Definition call_resolver (h : jsstring) : M PromiseSettledResult :=
  fun log => (fetchInstagramMetrics h, log ++ [h]).

Notation "'let*' x ':=' m 'in' k" := (bind m (fun x => k))
  (at level 10, x name, m at level 100, k at level 200).

(** [uniqueHandles.map(handle => fetchInstagramMetrics(handle))] followed
    by [Promise.allSettled]: one call per element, left to right, the
    settled results in the order of the calls. *)
Fixpoint allSettled (hs : list jsstring) : M (list PromiseSettledResult) :=
  match hs with
  | [] => ret []
  | h :: hs' =>
      let* r := call_resolver h in
      let* rs := allSettled hs' in
      ret (r :: rs)
  end.

(** [reason.message || "An unexpected error occurred."] *)
Definition or_default (s fallback : jsstring) : jsstring :=
  match s with [] => fallback | _ => s end.

(** The callback of [results.forEach]; [uniqueHandles[index]] is read with
    a default that is never used, the index being in range. *)
Definition collect (unique : list jsstring) (response : AnalyzeResponse)
    (index : nat) (result : PromiseSettledResult) : AnalyzeResponse :=
  let originalHandle := unique !!! index in
  match result with
  | fulfilled value =>
      mkAnalyzeResponse (data response ++ [value]) (errors response)
  | rejected reason =>
      if isSocialbladeError reason then
        mkAnalyzeResponse (data response)
          (errors response ++ [mkErrorEntry originalHandle (message reason)])
      else
        mkAnalyzeResponse (data response)
          (errors response ++
           [mkErrorEntry originalHandle
              (or_default (message reason)
                 (js "An unexpected error occurred."))])
  end.

(** [results.forEach((result, index) => ...)] from [index] on. *)
Fixpoint forEach (unique : list jsstring) (response : AnalyzeResponse)
    (index : nat) (results : list PromiseSettledResult) : AnalyzeResponse :=
  match results with
  | [] => response
  | result :: rest =>
      forEach unique (collect unique response index result) (S index) rest
  end.

(** [Array.isArray(v)], giving the elements when it holds. *)
Definition isArray (v : option JSValue) : option (list JSValue) :=
  match v with
  | Some (JArray items) => Some items
  | _ => None
  end.

(** [POST]; the result is [None] when the handler throws instead of
    answering, which it does when [String] throws on an element of
    [handles], before anything is dispatched. *)
Definition POST (payload : AnalyzeRequest) : M (option Response) :=
  match isArray (handles payload) with
  | None =>
      ret (Some (mkResponse 400
                   (MessageBody (js "Provide at least one Instagram handle."))))
  | Some items =>
      if (length items =? 0)%nat then
        ret (Some (mkResponse 400
                     (MessageBody
                        (js "Provide at least one Instagram handle."))))
      else
        match uniqueHandles items with
        | None => ret None
        | Some unique =>
            if (length unique =? 0)%nat then
              ret (Some (mkResponse 400
                           (MessageBody
                              (js "Provide at least one valid Instagram handle."))))
            else
              let* results := allSettled unique in
              ret (Some (mkResponse 200
                           (ResultBody
                              (forEach unique (mkAnalyzeResponse [] []) 0
                                 results))))
        end
  end.

(** Running the handler on a fresh log. *)
Definition respond (payload : AnalyzeRequest) : option Response :=
  fst (POST payload []).
Definition resolver_calls (payload : AnalyzeRequest) : list jsstring :=
  snd (POST payload []).

End Analyze.

Arguments JUndefined {number}.
Arguments JNull {number}.
Arguments JBool {number} b.
Arguments JNumber {number} x.
Arguments JString {number} s.
Arguments JArray {number} items.
Arguments JObject {number} fields.
Arguments hasOwn {number} fields name.
Arguments ToString {number} Number_toString v.
Arguments coerce {number} Number_toString value.
Arguments nullish {number} value fallback.
Arguments mkRequest {number} handles.
Arguments handles {number} a.
Arguments isArray {number} v.
Arguments tokens {number} Number_toString items.
Arguments uniqueHandles {number} Number_toString items.
Arguments POST {number} Number_toString fetchInstagramMetrics payload.
Arguments respond {number} Number_toString fetchInstagramMetrics payload.
Arguments resolver_calls {number} Number_toString fetchInstagramMetrics payload.

(** ** Numerals *)

(** The decimal digits of [n], least significant first; [fuel] bounds the
    number of digits. *)
Fixpoint digits_lsf (fuel : nat) (n : N) : list N :=
  match fuel with
  | O => []
  | S fuel' =>
      n mod 10 :: (if n / 10 =? 0 then [] else digits_lsf fuel' (n / 10))
  end.

(** The decimal numeral of [n], with no leading zero ("0" for zero). *)
Definition decimal (n : N) : jsstring :=
  reverse (map (fun d => 48 + d) (digits_lsf (S (N.size_nat n)) n)).

(** Reading a numeral back. *)
Definition numeral_value (s : jsstring) : N :=
  foldl (fun acc c => 10 * acc + (c - 48)) 0 s.

Definition isDigit (c : N) : bool := (48 <=? c) && (c <=? 57).

Definition comma : N := 44.
Definition quote : N := 34.
Definition newline : N := 10.

(** Grouping of the [en-US] locale, on the reversed numeral: a comma after
    every third digit that has a digit after it. *)
Fixpoint group_lsf (ds : jsstring) : jsstring :=
  match ds with
  | a :: b :: c :: rest =>
      match rest with
      | [] => ds
      | _ :: _ => a :: b :: c :: comma :: group_lsf rest
      end
  | _ => ds
  end.

Definition grouped (n : N) : jsstring :=
  reverse (group_lsf (reverse (decimal n))).

Definition N2Q (n : N) : Q := inject_Z (Z.of_N n).

(** Rounding a non-negative rational to the nearest integer, a tie going
    up. *)
Definition round_half_up (x : Q) : N := Z.to_N (Qfloor (x + (1 # 2))%Q).

Definition Qneg (x : Q) : bool := negb (Qle_bool 0 x).

(** [standardNumber.format], with
    [standardNumber = Intl.NumberFormat("en-US", { maximumFractionDigits: 0 })]:
    the number is rounded to an integer (ties away from zero) and printed in
    the locale's standard notation, which groups the digits by three.  The
    formatter prints every digit of a number below 2^53 in magnitude, the
    range in which the model is exact and in which the counts of a record
    lie.  From 2^53 on the formatter prints seventeen significant digits
    and fills up with zeros, which the model does not follow: what is
    proved of a grouped count is stated for counts below 2^53. *)
Definition standardNumber_format (x : Q) : jsstring :=
  (if Qneg x then js "-" else []) ++ grouped (round_half_up (Qabs x)).

(** ** [dashboard.tsx] *)

Inductive ColumnKey :=
| key_displayName
| key_handle
| key_followers
| key_averageViews
| key_engagementRate
| key_category
| key_location
| key_averageLikes.

Record ColumnDefinition := mkColumn {
  key : ColumnKey;
  label : jsstring;
  isNumeric : bool;
}.

Inductive SortOrder := asc | desc.

Definition columns : list ColumnDefinition :=
  [ mkColumn key_displayName (js "Name") false;
    mkColumn key_handle (js "Handle") false;
    mkColumn key_followers (js "Followers") true;
    mkColumn key_averageViews (js "Avg. Views") true;
    mkColumn key_engagementRate (js "Eng. Rate") true;
    mkColumn key_category (js "Category") false;
    mkColumn key_location (js "Location") false;
    mkColumn key_averageLikes (js "Avg. Likes") true ].

(** A value read off a record: a number or a string; [null] is [None]. *)
Inductive FieldValue :=
| VNumber (x : Q)
| VString (s : jsstring).

(** The part of the component's state the sort and the exports read. *)
Record DashboardState := mkState {
  rows : list InstagramMetrics;
  sortKey : ColumnKey;
  sortOrder : SortOrder;
}.

(** A cell handed to the workbook writer by [formatSummary]. *)
Inductive Cell :=
| CellString (s : jsstring)
| CellNumber (x : Q)
| CellNull.

(** [Array.prototype.sort] with a comparator.  ECMAScript requires the sort
    to be stable and to order by the sign of the comparator; every stable
    sort agrees on a consistent comparator, and the straight insertion sort
    is taken as the model. *)
Fixpoint insert {A} (cmp : A -> A -> Q) (x : A) (l : list A) : list A :=
  match l with
  | [] => [x]
  | y :: l' => if Qle_bool (cmp x y) 0 then x :: l else y :: insert cmp x l'
  end.

Fixpoint Array_sort {A} (cmp : A -> A -> Q) (l : list A) : list A :=
  match l with
  | [] => []
  | x :: l' => insert cmp x (Array_sort cmp l')
  end.

(** The order the sort reads off a comparator: [a] may stand before [b]. *)
Definition precedes {A} (cmp : A -> A -> Q) : relation A :=
  fun a b => Qle_bool (cmp a b) 0 = true.

Section Dashboard.

(** [Number::toString] on the numbers of a record, reached through
    [String(value)] and by [toFixed] from 10^21 on. *)
Variable Number_toString : Q -> jsstring.

(** [String.prototype.localeCompare] in the browser's locale. *)
Variable localeCompare : jsstring -> jsstring -> Z.

(** [String(value)]. *)
Definition String_ (value : FieldValue) : jsstring :=
  match value with
  | VNumber x => Number_toString x
  | VString s => s
  end.

(** [x.toFixed(2)] (Number.prototype.toFixed with two fraction digits). *)
Definition toFixed2 (x : Q) : jsstring :=
  let s := if Qneg x then js "-" else [] in
  let x := Qabs x in
  if Qle_bool (inject_Z (10 ^ 21)%Z) x then s ++ Number_toString x
  else
    let n := round_half_up (x * inject_Z 100)%Q in
    let m := decimal n in
    let k := length m in
    let m := if (k <=? 2)%nat then replicate (2 + 1 - k) 48 ++ m else m in
    let k := length m in
    let a := take (k - 2) m in
    let b := drop (k - 2) m in
    s ++ a ++ js "." ++ b.

(** [(row as Record<string, unknown>)[column.key]]. *)
Definition field (row : InstagramMetrics) (k : ColumnKey) : option FieldValue :=
  match k with
  | key_displayName => Some (VString (displayName row))
  | key_handle => Some (VString (handle row))
  | key_followers => VNumber ∘ N2Q <$> followers row
  | key_averageViews => VNumber ∘ N2Q <$> averageViews row
  | key_engagementRate => VNumber <$> engagementRate row
  | key_category => VString <$> category row
  | key_location => VString <$> location row
  | key_averageLikes => VNumber ∘ N2Q <$> averageLikes row
  end.

Definition extractSortValue (row : InstagramMetrics) (k : ColumnKey)
    : option FieldValue :=
  match k with
  | key_displayName => Some (VString (displayName row))
  | key_handle => Some (VString (handle row))
  | key_followers => VNumber ∘ N2Q <$> followers row
  | key_averageViews => VNumber ∘ N2Q <$> averageViews row
  | key_engagementRate => VNumber <$> engagementRate row
  | key_category => VString <$> category row
  | key_location => VString <$> location row
  | key_averageLikes => VNumber ∘ N2Q <$> averageLikes row
  end.

(** The comparator handed to [dataset.sort] in [sortedRows].  The difference
    of two doubles has the sign of the difference of their exact values,
    which is all the sort reads. *)
Definition compareRows (k : ColumnKey) (order : SortOrder)
    (a b : InstagramMetrics) : Q :=
  let aValue := extractSortValue a k in
  let bValue := extractSortValue b k in
  match aValue, bValue with
  | None, None => 0
  | None, Some _ => match order with asc => 1 | desc => -1 end
  | Some _, None => match order with asc => -1 | desc => 1 end
  | Some (VNumber x), Some (VNumber y) =>
      match order with asc => x - y | desc => y - x end
  | Some va, Some vb =>
      inject_Z
        match order with
        | asc => localeCompare (String_ va) (String_ vb)
        | desc => localeCompare (String_ vb) (String_ va)
        end
  end%Q.

Definition sortedRows (st : DashboardState) : list InstagramMetrics :=
  let dataset := rows st in
  Array_sort (compareRows (sortKey st) (sortOrder st)) dataset.

(** No two records of the list compare as equal under the column. *)
Fixpoint distinct_keys (k : ColumnKey) (l : list InstagramMetrics) : bool :=
  match l with
  | [] => true
  | a :: l' =>
      forallb (fun b => negb (Qeq_bool (compareRows k asc a b) 0)) l'
      && distinct_keys k l'
  end.

Definition formatCellForExport (row : InstagramMetrics)
    (column : ColumnDefinition) : jsstring :=
  match field row (key column) with
  | None => []
  | Some value =>
      match key column with
      | key_handle => js "@" ++ String_ value
      | key_followers | key_averageViews | key_averageLikes =>
          match value with
          | VNumber x => standardNumber_format x
          | _ => String_ value
          end
      | key_engagementRate =>
          match value with
          | VNumber x => toFixed2 x
          | _ => String_ value
          end
      | _ => String_ value
      end
  end.

(** The test [needsEscape] of [exportCsv]: the value holds a double quote,
    a comma or a line feed. *)
Definition needsEscape (value : jsstring) : bool :=
  existsb (fun c => (c =? quote) || (c =? comma) || (c =? newline)) value.

(** The [replace] of [exportCsv]: every double quote is doubled. *)
Definition doubleQuotes (value : jsstring) : jsstring :=
  flat_map (fun c => if c =? quote then [quote; quote] else [c]) value.

Definition csvField (value : jsstring) : jsstring :=
  if needsEscape value then [quote] ++ doubleQuotes value ++ [quote]
  else value.

(** [exportCsv], up to the text handed to the [Blob]; [None] when there are
    no rows and nothing is exported. *)
Definition exportCsv (st : DashboardState) : option jsstring :=
  if (length (rows st) =? 0)%nat then None
  else
    let headers := map label columns in
    let records :=
      map (fun row =>
             join [comma]
               (map (fun column => csvField (formatCellForExport row column))
                  columns))
        (rows st) in
    let csv := join [newline] (join [comma] headers :: records) in
    Some csv.

(** [value ?? ""] on a numeric field. *)
Definition number_or_blank (value : option Q) : Cell :=
  match value with
  | Some x => CellNumber x
  | None => CellString []
  end.

Definition string_or_null (value : option jsstring) : Cell :=
  match value with
  | Some s => CellString s
  | None => CellNull
  end.

(** [formatSummary]: the object of one spreadsheet row, its properties in
    insertion order. *)
Definition formatSummary (row : InstagramMetrics) : list (jsstring * Cell) :=
  [ (js "Name", CellString (displayName row));
    (js "Handle", CellString (js "@" ++ handle row));
    (js "Followers", number_or_blank (N2Q <$> followers row));
    (js "Avg. Views", number_or_blank (N2Q <$> averageViews row));
    (js "Avg. Likes", number_or_blank (N2Q <$> averageLikes row));
    (js "Engagement Rate (%)", number_or_blank (engagementRate row));
    (js "Category", string_or_null (category row));
    (js "Location", string_or_null (location row)) ].

(** The rows [exportExcel] hands to [XLSX.utils.json_to_sheet]; [None] when
    there are no rows. *)
Definition exportExcel (st : DashboardState)
    : option (list (list (jsstring * Cell))) :=
  if (length (rows st) =? 0)%nat then None
  else Some (map formatSummary (rows st)).

(** [compactNumber.format], with
    [compactNumber = Intl.NumberFormat("en-US",
       { notation: "compact", maximumFractionDigits: 1 })]:
    the abbreviated notation of the screen, left to the platform. *)
Variable compactNumber_format : Q -> jsstring.

(** The dash the screen shows for a value it does not have (U+2014). *)
Definition dash : jsstring := [8212].

(** [formatCell], the text of a table cell on the screen. *)
Definition formatCell (row : InstagramMetrics) (column : ColumnDefinition)
    : jsstring :=
  match field row (key column) with
  | None => dash
  | Some value =>
      match key column with
      | key_handle => js "@" ++ String_ value
      | key_followers | key_averageViews | key_averageLikes =>
          match value with
          | VNumber x => compactNumber_format x
          | _ => dash
          end
      | key_engagementRate =>
          match value with
          | VNumber x => toFixed2 x ++ js "%"
          | _ => dash
          end
      | _ => String_ value
      end
  end.

End Dashboard.

(** *** The normalizer and the handlers of the component *)

(** The characters the class of the pattern in [parsedHandles] matches:
    white space (the set [trim] strips) and the comma. *)
Definition isSeparator (c : N) : bool := isWhiteSpace c || (c =? comma).

(** [input.split(pattern)] for the pattern of [parsedHandles], one or more
    separators: the pieces between the maximal runs of separators, with an
    empty piece before a leading run and after a trailing one.  [in_run]
    tells that the last character read was a separator; [piece] is the
    piece being read. *)
Fixpoint split_go (in_run : bool) (piece : jsstring) (s : jsstring)
    : list jsstring :=
  match s with
  | [] => [piece]
  | c :: s' =>
      if isSeparator c then
        if in_run then split_go true piece s'
        else piece :: split_go true [] s'
      else split_go false (piece ++ [c]) s'
  end.

Definition split_separators (s : jsstring) : list jsstring :=
  split_go false [] s.

(** [parsedHandles]. *)
Definition parsedHandles (handlesInput : jsstring) : list jsstring :=
  filter (fun h => (0 <? length h)%nat)
    (map (fun h => trim h) (split_separators handlesInput)).

#[global] Instance ColumnKey_eq_dec : EqDecision ColumnKey.
Proof. solve_decision. Defined.

(** [handleSort]: a click on the header of [column]. *)
Definition handleSort (column : ColumnDefinition) (st : DashboardState)
    : DashboardState :=
  if decide (sortKey st = key column) then
    mkState (rows st) (sortKey st)
      (match sortOrder st with asc => desc | desc => asc end)
  else
    mkState (rows st) (key column) (if isNumeric column then desc else asc).

(** The state of the component: the text of the input, what the sort and
    the exports read, the errors shown, and the time of the last refresh (a
    number of milliseconds, [null] being [None]). *)
Record Dashboard := mkDashboard {
  handlesInput : jsstring;
  view : DashboardState;
  shownErrors : list ErrorEntry;
  lastUpdatedAt : option N;
}.

(** What [handleAnalyze] gets from its [try] block: a value thrown by
    [fetch] or by [response.json] (an [Error] with its message, or something
    else), or the response. *)
Inductive FetchResult :=
| thrown_Error (msg : jsstring)
| thrown_other
| responded (r : Response).

(** [response.ok]. *)
Definition ok (r : Response) : bool :=
  (200 <=? status r)%nat && (status r <=? 299)%nat.

(** The [catch] block of [handleAnalyze]. *)
Definition analyzeFailed (msg : jsstring) (d : Dashboard) : Dashboard :=
  mkDashboard (handlesInput d)
    (mkState [] (sortKey (view d)) (sortOrder (view d)))
    [mkErrorEntry (js "request") msg] None.

(** [handleAnalyze], given what the request came to and the time [now].
    The records and the error entries cross the wire as JSON, which gives
    them back as they are.  The result is [None] when an [ok] response has no [data] and [errors],
    in which case the component would store [undefined]; the handler never
    sends such a response. *)
Definition handleAnalyze (result : FetchResult) (now : N) (d : Dashboard)
    : option Dashboard :=
  match result with
  | thrown_Error msg => Some (analyzeFailed msg d)
  | thrown_other => Some (analyzeFailed (js "Unexpected error occurred.") d)
  | responded r =>
      if negb (ok r) then
        match body r with
        | MessageBody msg => Some (analyzeFailed msg d)
        | ResultBody _ =>
            Some (analyzeFailed (js "Unable to fetch metrics.") d)
        end
      else
        match body r with
        | ResultBody payload =>
            Some (mkDashboard (handlesInput d)
                    (mkState (data payload) (sortKey (view d))
                       (sortOrder (view d)))
                    (errors payload) (Some now))
        | MessageBody _ => None
        end
  end.

(** The body [handleAnalyze] sends, as the route reads it:
    [{ handles: parsedHandles }]. *)
Definition analyzeRequest {number : Type} (d : Dashboard)
    : AnalyzeRequest number :=
  mkRequest (Some (JArray (map JString (parsedHandles (handlesInput d))))).

(** *** Reading the exported text back *)

Definition carriageReturn : N := 13.

(** A reader of comma-separated text after RFC 4180, against which the text
    of [exportCsv] is checked: a field is plain or quoted, a quote within a
    quoted field is doubled, and outside quotes a record ends at a line
    break, which is a carriage return followed by a line feed, a lone line
    feed or a lone carriage return.  The state tells where in a field the
    reader is; [AfterCR] is the start of a record that follows a carriage
    return, where a line feed belongs to the line break just read. *)
Inductive CsvState := AtStart | InPlain | InQuoted | AfterQuote | AfterCR.

(** The records of a text, each a list of fields; [fld] is the field being
    read and [record] the fields read before it on the line. *)
Fixpoint csvRead (st : CsvState) (fld : jsstring) (record : list jsstring)
    (s : jsstring) : list (list jsstring) :=
  match s with
  | [] => [record ++ [fld]]
  | c :: s' =>
      match st with
      | InQuoted =>
          if c =? quote then csvRead AfterQuote fld record s'
          else csvRead InQuoted (fld ++ [c]) record s'
      | AfterCR =>
          if c =? newline then csvRead AtStart [] [] s'
          else if c =? quote then csvRead InQuoted [] record s'
          else if c =? comma then csvRead AtStart [] (record ++ [fld]) s'
          else if c =? carriageReturn then
            (record ++ [fld]) :: csvRead AfterCR [] [] s'
          else csvRead InPlain (fld ++ [c]) record s'
      | AtStart =>
          if c =? quote then csvRead InQuoted [] record s'
          else if c =? comma then csvRead AtStart [] (record ++ [fld]) s'
          else if c =? newline then
            (record ++ [fld]) :: csvRead AtStart [] [] s'
          else if c =? carriageReturn then
            (record ++ [fld]) :: csvRead AfterCR [] [] s'
          else csvRead InPlain (fld ++ [c]) record s'
      | InPlain =>
          if c =? comma then csvRead AtStart [] (record ++ [fld]) s'
          else if c =? newline then
            (record ++ [fld]) :: csvRead AtStart [] [] s'
          else if c =? carriageReturn then
            (record ++ [fld]) :: csvRead AfterCR [] [] s'
          else csvRead InPlain (fld ++ [c]) record s'
      | AfterQuote =>
          if c =? quote then csvRead InQuoted (fld ++ [quote]) record s'
          else if c =? comma then csvRead AtStart [] (record ++ [fld]) s'
          else if c =? newline then
            (record ++ [fld]) :: csvRead AtStart [] [] s'
          else if c =? carriageReturn then
            (record ++ [fld]) :: csvRead AfterCR [] [] s'
          else csvRead InPlain (fld ++ [c]) record s'
      end
  end.

Definition csvParse (s : jsstring) : list (list jsstring) :=
  csvRead AtStart [] [] s.

(** What the reader does once the field [fld] is complete and [tail] is
    left: the end of the text, a comma or a line feed. *)
Definition csvAfter (fld : jsstring) (record : list jsstring)
    (tail : jsstring) : list (list jsstring) :=
  match tail with
  | [] => [record ++ [fld]]
  | c :: s' =>
      if c =? comma then csvRead AtStart [] (record ++ [fld]) s'
      else (record ++ [fld]) :: csvRead AtStart [] [] s'
  end.

Definition fieldEnd (tail : jsstring) : Prop :=
  match tail with
  | [] => True
  | c :: _ => c = comma ∨ c = newline
  end.

(** A cell text that holds a carriage return and that [csvField] writes
    without quotes, the check of [exportCsv] looking for a comma, a quote
    and a line feed only. *)
Definition bareCarriageReturn (value : jsstring) : bool :=
  existsb (fun c => c =? carriageReturn) value && negb (needsEscape value).


(** ** Views used to state the properties *)

(** The message the handler records for a rejection: the reason's own
    message, or the generic one when the reason is no [SocialbladeError] and
    its message is empty. *)
Definition error_message (reason : Error) : jsstring :=
  if isSocialbladeError reason then message reason
  else or_default (message reason) (js "An unexpected error occurred.").

Definition success_of (result : PromiseSettledResult)
    : option InstagramMetrics :=
  match result with
  | fulfilled value => Some value
  | rejected _ => None
  end.

Definition failure_of (h : jsstring) (result : PromiseSettledResult)
    : option ErrorEntry :=
  match result with
  | fulfilled _ => None
  | rejected reason => Some (mkErrorEntry h (error_message reason))
  end.

(** The string an element of an array contributes to the string of the
    array, as [ToString] computes it. *)
Definition elementString {number : Type} (Number_toString : number -> jsstring)
    (e : JSValue number) : option jsstring :=
  match e with
  | JUndefined | JNull => Some []
  | _ => ToString Number_toString e
  end.

(** The values [String] throws on: an object with an own property
    [toString], and an array one of whose elements is such a value. *)
Inductive Uncoercible {number : Type} : JSValue number -> Prop :=
| uncoercible_object fields :
    hasOwn fields (js "toString") = true -> Uncoercible (JObject fields)
| uncoercible_array items e :
    e ∈ items -> Uncoercible e -> Uncoercible (JArray items).

(** The request bodies that carry no handle: [handles] is missing, is not an
    array, is the empty array, or is an array none of whose elements leaves
    a non-empty token (each of them coerces to a string that trims to the
    empty one). *)
Inductive EmptyInput {number : Type} (Number_toString : number -> jsstring)
    : AnalyzeRequest number -> Prop :=
| handles_missing :
    EmptyInput Number_toString (mkRequest None)
| handles_not_array v :
    isArray (Some v) = None ->
    EmptyInput Number_toString (mkRequest (Some v))
| handles_empty_array :
    EmptyInput Number_toString (mkRequest (Some (JArray [])))
| handles_no_token items :
    (forall v, v ∈ items -> coerce Number_toString v = Some []) ->
    EmptyInput Number_toString (mkRequest (Some (JArray items))).

(** In the words of the specification, a handle is a token trimmed of the
    white space around it.  [Trimmed s t] says so without the function
    [trim]: [s] is [t] between two runs of white space, and [t] neither
    starts nor ends with white space. *)
Definition Trimmed (s t : jsstring) : Prop :=
  ∃ before after,
    s = before ++ t ++ after
    ∧ Forall (fun c => isWhiteSpace c = true) before
    ∧ Forall (fun c => isWhiteSpace c = true) after
    ∧ match t with [] => True | c :: _ => isWhiteSpace c = false end
    ∧ match reverse t with [] => True | c :: _ => isWhiteSpace c = false end.

(** The element [v] of a request has a string form, which trimmed is [t]. *)
Definition Coerces {number : Type} (Number_toString : number -> jsstring)
    (v : JSValue number) (t : jsstring) : Prop :=
  ∃ s, ToString Number_toString (nullish v (JString [])) = Some s
       ∧ Trimmed s t.

(** The trimmed non-empty tokens of a list of elements, in the words of the
    specification. *)
Definition IsToken {number : Type} (Number_toString : number -> jsstring)
    (items : list (JSValue number)) (t : jsstring) : Prop :=
  t ≠ [] ∧ ∃ v, v ∈ items ∧ Coerces Number_toString v t.

(** The integer a record holds under one of the three count columns. *)
Definition count_of (row : InstagramMetrics) (k : ColumnKey) : option N :=
  match k with
  | key_followers => followers row
  | key_averageViews => averageViews row
  | key_averageLikes => averageLikes row
  | _ => None
  end.

(** Reading a property of the object [formatSummary] builds. *)
Fixpoint property (obj : list (jsstring * Cell)) (name : jsstring)
    : option Cell :=
  match obj with
  | [] => None
  | (k, v) :: obj' => if decide (k = name) then Some v else property obj' name
  end.

(** ** Sample data *)

Definition nasa : InstagramMetrics :=
  mkMetrics (js "NASA") (js "nasa") (Some 1000000) None
    (Some (3456 # 1000)%Q) None (Some (js "Washington, DC")) (Some 999).

(** A resolver that knows one account. *)
Definition sample_resolver (h : jsstring) : PromiseSettledResult :=
  if decide (h = js "@nasa") then fulfilled nasa
  else rejected (mkError true (js "Account not found")).

(** A request body over JSON numbers that are non-negative integers below
    10^21; [Number::toString] of such a number is its decimal numeral. *)
Definition sample_items : list (JSValue N) :=
  [ JString (js "@nasa"); JString (js "  @nasa "); JNumber 42; JNull;
    JString (js "@doesnotexist123456") ].

Definition blank_items : list (JSValue N) :=
  [ JNull; JString (js "   "); JArray []; JUndefined ].

(** Handles with white space around them, some of them more than once. *)
Definition padded_items : list (JSValue N) :=
  [ JString (js " a"); JString (js "a"); JString (js "a ");
    JString (js "@nasa"); JNumber 42; JString (js "a");
    JString (js "  @nasa  ") ].


(** [Number::toString] on the numbers the samples apply it to, the
    non-negative integers below 10^21: the decimal numeral. *)
Definition sample_toString (x : Q) : jsstring := decimal (Z.to_N (Qfloor x)).

(** A comparison of strings by code units, standing for [localeCompare] in
    the samples. *)
Fixpoint codeUnitCompare (a b : jsstring) : Z :=
  match a, b with
  | [], [] => 0
  | [], _ :: _ => -1
  | _ :: _, [] => 1
  | x :: a', y :: b' =>
      match N.compare x y with
      | Lt => -1
      | Gt => 1
      | Eq => codeUnitCompare a' b'
      end
  end.

Definition esa : InstagramMetrics :=
  mkMetrics (js "ESA") (js "esa") (Some 1000000) (Some 1200)
    (Some (21 # 10)%Q) (Some (js "Science")) None (Some 40).

Definition cern : InstagramMetrics :=
  mkMetrics (js "CERN") (js "cern") (Some 2500) None
    None (Some (js "Science")) (Some (js "Geneva")) None.

(** The component after the text of two accounts, one of them twice, was
    typed. *)
Definition sample_dashboard : Dashboard :=
  mkDashboard (js "@nasa, @esa  @nasa") (mkState [] key_followers desc)
    [] None.

(** ** Facts about the ordered set *)

Lemma Set_add_elem (s : list jsstring) (x y : jsstring) :
  y ∈ Set_add s x ↔ y ∈ s ∨ y = x.
Proof.
  unfold Set_add. case_decide as Hx.
  - split; [tauto|]. intros [?| ->]; done.
  - rewrite elem_of_app, list_elem_of_singleton. tauto.
Qed.

Lemma Set_add_NoDup (s : list jsstring) (x : jsstring) :
  NoDup s → NoDup (Set_add s x).
Proof.
  intros Hs. unfold Set_add. case_decide as Hx; [done|].
  apply NoDup_app. split_and!; [done| |apply NoDup_singleton].
  intros y Hy ->%list_elem_of_singleton. done.
Qed.

Lemma Set_from_snoc (l : list jsstring) (x : jsstring) :
  Set_from (l ++ [x]) = Set_add (Set_from l) x.
Proof. unfold Set_from. by rewrite foldl_app. Qed.

Lemma Set_from_elem (l : list jsstring) (y : jsstring) :
  y ∈ Set_from l ↔ y ∈ l.
Proof.
  induction l as [|x l IH] using rev_ind.
  - done.
  - rewrite Set_from_snoc, Set_add_elem, IH, elem_of_app,
      list_elem_of_singleton. done.
Qed.

Lemma Set_from_NoDup (l : list jsstring) : NoDup (Set_from l).
Proof.
  induction l as [|x l IH] using rev_ind.
  - constructor.
  - rewrite Set_from_snoc. by apply Set_add_NoDup.
Qed.

Lemma Set_from_length (l : list jsstring) :
  length (Set_from l) = size (list_to_set l : gset jsstring).
Proof.
  rewrite <-(size_list_to_set (C:=gset jsstring) (Set_from l))
    by apply Set_from_NoDup.
  f_equal. apply set_eq. intros y.
  by rewrite !elem_of_list_to_set, Set_from_elem.
Qed.

Lemma indexOf_Some (x : jsstring) (l : list jsstring) (p : nat) :
  indexOf x l = Some p → l !! p = Some x.
Proof.
  revert p. induction l as [|y l IH]; intros p; simpl; [done|].
  case_decide as Hxy.
  - intros [= <-]. by subst.
  - destruct (indexOf x l) as [q|]; simpl; [|done].
    intros [= <-]. simpl. by apply IH.
Qed.

Lemma indexOf_elem (x : jsstring) (l : list jsstring) :
  x ∈ l → ∃ p, indexOf x l = Some p.
Proof.
  induction l as [|y l IH]; simpl; intros Hx.
  - by apply elem_of_nil in Hx.
  - case_decide as Hxy; [eauto|].
    apply elem_of_cons in Hx as [?|Hx]; [done|].
    destruct (IH Hx) as [p ->]. simpl. eauto.
Qed.

Lemma indexOf_app_l (x : jsstring) (l l' : list jsstring) :
  x ∈ l → indexOf x (l ++ l') = indexOf x l.
Proof.
  induction l as [|y l IH]; simpl; intros Hx.
  - by apply elem_of_nil in Hx.
  - case_decide as Hxy; [done|].
    apply elem_of_cons in Hx as [?|Hx]; [done|]. by rewrite IH.
Qed.

Lemma indexOf_snoc_new (x : jsstring) (l : list jsstring) :
  x ∉ l → indexOf x (l ++ [x]) = Some (length l).
Proof.
  induction l as [|y l IH]; simpl; intros Hx.
  - by rewrite decide_True.
  - apply not_elem_of_cons in Hx as [Hxy Hx].
    rewrite decide_False by done. by rewrite IH.
Qed.

(** The elements of the set stand in the order of their first occurrences. *)
Lemma Set_from_order (l : list jsstring) (i j : nat) (x y : jsstring) :
  Set_from l !! i = Some x → Set_from l !! j = Some y → (i < j)%nat →
  ∃ p q, indexOf x l = Some p ∧ indexOf y l = Some q ∧ (p < q)%nat.
Proof.
  revert i j x y. induction l as [|z l IH] using rev_ind; intros i j x y.
  - done.
  - rewrite Set_from_snoc. unfold Set_add. case_decide as Hz.
    + intros Hi Hj Hij. destruct (IH _ _ _ _ Hi Hj Hij) as (p & q & Hp & Hq & ?).
      exists p, q. split_and!; [| |done].
      * rewrite indexOf_app_l; [done|].
        apply Set_from_elem. by eapply list_elem_of_lookup_2.
      * rewrite indexOf_app_l; [done|].
        apply Set_from_elem. by eapply list_elem_of_lookup_2.
    + intros Hi Hj Hij.
      assert (i < length (Set_from l))%nat as Hil.
      { apply lookup_lt_Some in Hj. rewrite length_app in Hj. simpl in Hj. lia. }
      rewrite lookup_app_l in Hi by done.
      assert (x ∈ l) as Hx.
      { apply Set_from_elem. by eapply list_elem_of_lookup_2. }
      destruct (decide (j < length (Set_from l))%nat) as [Hjl|Hjl].
      * rewrite lookup_app_l in Hj by done.
        destruct (IH _ _ _ _ Hi Hj Hij) as (p & q & Hp & Hq & ?).
        exists p, q. split_and!; [| |done].
        -- by rewrite indexOf_app_l.
        -- rewrite indexOf_app_l; [done|].
           apply Set_from_elem. by eapply list_elem_of_lookup_2.
      * rewrite lookup_app_r in Hj by lia.
        apply list_lookup_singleton_Some in Hj as [_ <-].
        destruct (indexOf_elem _ _ Hx) as [p Hp].
        exists p, (length l). split_and!.
        -- by rewrite indexOf_app_l.
        -- apply indexOf_snoc_new. by rewrite <-Set_from_elem.
        -- apply indexOf_Some, lookup_lt_Some in Hp. done.
Qed.

Lemma indexOf_split (x : jsstring) (l : list jsstring) (p : nat) :
  indexOf x l = Some p → ∃ l1 l2, l = l1 ++ x :: l2 ∧ length l1 = p.
Proof.
  intros Hp%indexOf_Some. exists (take p l), (drop (S p) l). split.
  - by rewrite take_drop_middle.
  - apply lookup_lt_Some in Hp. rewrite length_take. lia.
Qed.

(** An element of the set stands before another one when it occurs in the
    list before any occurrence of the other. *)
Lemma Set_from_first (l : list jsstring) (i j : nat) (x y : jsstring) :
  Set_from l !! i = Some x → Set_from l !! j = Some y → (i < j)%nat →
  ∃ l1 l2, l = l1 ++ x :: l2 ∧ y ∉ l1.
Proof.
  intros Hi Hj Hij.
  destruct (Set_from_order _ _ _ _ _ Hi Hj Hij) as (p & q & Hp & Hq & Hpq).
  destruct (indexOf_split _ _ _ Hp) as (l1 & l2 & -> & Hlen).
  exists l1, l2. split; [done|]. intros Hy.
  rewrite indexOf_app_l in Hq by done.
  apply indexOf_Some, lookup_lt_Some in Hq. lia.
Qed.

Lemma filter_split {A} (P : A → Prop) `{!∀ x, Decision (P x)}
    (l l1 l2 : list A) (x : A) :
  filter P l = l1 ++ x :: l2 →
  ∃ k1 k2, l = k1 ++ x :: k2 ∧ filter P k1 = l1.
Proof.
  revert l1. induction l as [|a l IH]; intros l1.
  - by destruct l1.
  - rewrite filter_cons. case_decide as Ha.
    + destruct l1 as [|b l1]; simpl.
      * intros [= -> Hl]. by exists [], l.
      * intros [= -> Hl]. destruct (IH _ Hl) as (k1 & k2 & -> & Hk).
        exists (b :: k1), k2. split; [done|].
        rewrite filter_cons_True by done. by rewrite Hk.
    + intros Hl. destruct (IH _ Hl) as (k1 & k2 & -> & Hk).
      exists (a :: k1), k2. split; [done|]. by rewrite filter_cons_False.
Qed.

(** ** Trimming *)

Lemma dropWhile_head {A} (p : A → bool) (l : list A) (x : A) (r : list A) :
  dropWhile p l = x :: r → p x = false.
Proof.
  induction l as [|y l IH]; simpl; [done|].
  destruct (p y) eqn:Hy; [done|]. by intros [= <- _].
Qed.

Lemma dropWhile_none {A} (p : A → bool) (l : list A) :
  Forall (fun x => p x = false) l → dropWhile p l = l.
Proof. destruct 1 as [|x l Hx _]; simpl; [done|]. by rewrite Hx. Qed.

Lemma dropWhile_snoc {A} (p : A → bool) (l : list A) (x : A) :
  p x = false → dropWhile p (l ++ [x]) = dropWhile p l ++ [x].
Proof.
  intros Hx. induction l as [|y l IH]; simpl.
  - by rewrite Hx.
  - by destruct (p y).
Qed.

(** What [trim] leaves neither starts nor ends with white space. *)
Lemma trim_ends (s : jsstring) :
  match trim s with
  | [] => True
  | c :: _ => isWhiteSpace c = false
  end
  ∧ match reverse (trim s) with
    | [] => True
    | c :: _ => isWhiteSpace c = false
    end.
Proof.
  unfold trim, trimEnd, trimStart.
  destruct (dropWhile isWhiteSpace s) as [|x t] eqn:Hs.
  { by vm_compute. }
  apply dropWhile_head in Hs.
  rewrite reverse_cons, dropWhile_snoc by done.
  destruct (dropWhile isWhiteSpace (reverse t)) as [|y r] eqn:Ht.
  - by vm_compute.
  - apply dropWhile_head in Ht.
    rewrite reverse_involutive, reverse_app. by simpl.
Qed.

(** A string that neither starts nor ends with white space is left as it
    is. *)
Lemma trim_fixed (s : jsstring) :
  match s with [] => True | c :: _ => isWhiteSpace c = false end →
  match reverse s with [] => True | c :: _ => isWhiteSpace c = false end →
  trim s = s.
Proof.
  intros Hhead Hlast. unfold trim, trimEnd, trimStart.
  assert (dropWhile isWhiteSpace s = s) as ->.
  { destruct s as [|c s]; simpl; [done|]. by rewrite Hhead. }
  assert (dropWhile isWhiteSpace (reverse s) = reverse s) as ->.
  { destruct (reverse s) as [|c r]; simpl; [done|]. by rewrite Hlast. }
  apply reverse_involutive.
Qed.

Lemma trim_idempotent (s : jsstring) : trim (trim s) = trim s.
Proof. destruct (trim_ends s). by apply trim_fixed. Qed.

Lemma trim_no_whitespace (s : jsstring) :
  Forall (fun c => isWhiteSpace c = false) s → trim s = s.
Proof.
  intros Hs. apply trim_fixed.
  - by destruct Hs.
  - apply Forall_reverse in Hs. by destruct Hs.
Qed.

Lemma dropWhile_split {A} (p : A → bool) (l : list A) :
  ∃ before, l = before ++ dropWhile p l
            ∧ Forall (fun x => p x = true) before.
Proof.
  induction l as [|x l (before & Hl & Hb)]; simpl.
  - by exists [].
  - destruct (p x) eqn:Hx.
    + exists (x :: before). split; [simpl; by f_equal|by constructor].
    + by exists [].
Qed.

Lemma dropWhile_app_all {A} (p : A → bool) (before l : list A) :
  Forall (fun x => p x = true) before →
  dropWhile p (before ++ l) = dropWhile p l.
Proof. induction 1 as [|x before Hx _ IH]; simpl; [done|]. by rewrite Hx. Qed.

(** [trim] meets the description of a trimmed string, and nothing else
    does. *)
Lemma trim_Trimmed (s : jsstring) : Trimmed s (trim s).
Proof.
  destruct (dropWhile_split isWhiteSpace s) as (before & Hs & Hb).
  destruct (dropWhile_split isWhiteSpace (reverse (dropWhile isWhiteSpace s)))
    as (after & Hr & Ha).
  exists before, (reverse after). split_and!.
  - rewrite Hs at 1. f_equal. unfold trim, trimEnd, trimStart.
    rewrite <-reverse_app, <-Hr. by rewrite reverse_involutive.
  - done.
  - by apply Forall_reverse.
  - apply trim_ends.
  - apply trim_ends.
Qed.

Lemma Trimmed_trim (s t : jsstring) : Trimmed s t → trim s = t.
Proof.
  intros (before & after & -> & Hb & Ha & Hhead & Hlast).
  unfold trim, trimEnd, trimStart. rewrite dropWhile_app_all by done.
  destruct t as [|c t].
  - simpl. rewrite <-(app_nil_r after), dropWhile_app_all by done. done.
  - simpl app. simpl dropWhile. rewrite Hhead.
    change (c :: t ++ after) with ((c :: t) ++ after).
    rewrite reverse_app, dropWhile_app_all by (by apply Forall_reverse).
    destruct (reverse (c :: t)) as [|d r] eqn:Hrev.
    + apply (f_equal reverse) in Hrev. rewrite reverse_involutive in Hrev.
      done.
    + simpl. rewrite Hlast. rewrite <-Hrev. apply reverse_involutive.
Qed.

(** ** The batch aggregator *)

(** Induction on the values of a parsed body, with the property at hand for
    the elements of an array. *)
Section JSValueInduction.

Context {number : Type}.
Variable P : JSValue number -> Prop.
Hypothesis P_undefined : P JUndefined.
Hypothesis P_null : P JNull.
Hypothesis P_bool : ∀ b, P (JBool b).
Hypothesis P_number : ∀ x, P (JNumber x).
Hypothesis P_string : ∀ s, P (JString s).
Hypothesis P_array : ∀ items, Forall P items → P (JArray items).
Hypothesis P_object : ∀ fields, P (JObject fields).

Fixpoint JSValue_elements_ind (v : JSValue number) : P v :=
  match v with
  | JUndefined => P_undefined
  | JNull => P_null
  | JBool b => P_bool b
  | JNumber x => P_number x
  | JString s => P_string s
  | JArray items =>
      P_array items
        ((fix each (l : list (JSValue number)) : Forall P l :=
            match l with
            | [] => @List.Forall_nil _ P
            | e :: l' =>
                @List.Forall_cons _ P e l' (JSValue_elements_ind e) (each l')
            end) items)
  | JObject fields => P_object fields
  end.

End JSValueInduction.

Section AnalyzeTheory.

Context {number : Type}.
Variable Number_toString : number -> jsstring.
Variable fetch : jsstring -> PromiseSettledResult.

Lemma allSettled_run (hs log : list jsstring) :
  allSettled fetch hs log = (fetch <$> hs, log ++ hs).
Proof.
  revert log. induction hs as [|h hs IH]; intros log; simpl.
  - unfold ret. by rewrite app_nil_r.
  - unfold bind, call_resolver, ret. rewrite IH.
    by rewrite <-app_assoc.
Qed.

Lemma collect_run (unique : list jsstring) (response : AnalyzeResponse)
    (index : nat) (h : jsstring) :
  unique !! index = Some h →
  collect unique response index (fetch h) =
    mkAnalyzeResponse
      (data response ++ option_list (success_of (fetch h)))
      (errors response ++ option_list (failure_of h (fetch h))).
Proof.
  intros Hh. unfold collect.
  rewrite (list_lookup_total_correct _ _ _ Hh).
  destruct (fetch h) as [value|reason]; simpl.
  - rewrite app_nil_r. by destruct response.
  - unfold error_message. destruct (isSocialbladeError reason);
      rewrite app_nil_r; by destruct response.
Qed.

Lemma forEach_run (unique rest : list jsstring) (response : AnalyzeResponse)
    (index : nat) :
  drop index unique = rest →
  forEach unique response index (fetch <$> rest) =
    mkAnalyzeResponse
      (data response ++ omap (success_of ∘ fetch) rest)
      (errors response ++ omap (fun h => failure_of h (fetch h)) rest).
Proof.
  revert response index. induction rest as [|h rest IH]; intros response index Hd.
  - simpl. rewrite !app_nil_r. by destruct response.
  - assert (unique !! index = Some h) as Hh.
    { rewrite <-(Nat.add_0_r index), <-lookup_drop, Hd. done. }
    simpl. rewrite (collect_run _ _ _ _ Hh).
    rewrite IH.
    + simpl. f_equal; rewrite <-app_assoc; f_equal;
        by destruct (fetch h).
    + rewrite (drop_S _ _ _ Hh) in Hd. by injection Hd.
Qed.

(** *** Which elements have a string form *)

Lemma ToString_array (items : list (JSValue number)) :
  ToString Number_toString (JArray items) =
  join (js ",") <$> mapM (elementString Number_toString) items.
Proof. simpl. by f_equal. Qed.

Lemma elementString_None (e : JSValue number) :
  elementString Number_toString e = None ↔ ToString Number_toString e = None.
Proof. by destruct e. Qed.

(** [String] throws exactly on the values described by [Uncoercible]. *)
Lemma ToString_None (v : JSValue number) :
  ToString Number_toString v = None ↔ Uncoercible v.
Proof.
  induction v as [| |b|x|s|items IH|fields] using JSValue_elements_ind;
    try (split; [done|by inversion 1]).
  - destruct b; (split; [done|by inversion 1]).
  - rewrite ToString_array, fmap_None. split.
    + intros (e & He & Hnone)%mapM_None_1%Exists_exists.
      apply uncoercible_array with e; [done|].
      rewrite Forall_forall in IH. apply IH; [done|].
      by apply elementString_None.
    + inversion 1 as [|items' e He Hu]; subst.
      apply mapM_None_2, Exists_exists. exists e. split; [done|].
      rewrite Forall_forall in IH. by apply elementString_None, IH.
  - simpl. destruct (hasOwn fields (js "toString")) eqn:Hown.
    + split; [by constructor|done].
    + split; [done|]. inversion 1; congruence.
Qed.

Lemma coerce_None (v : JSValue number) :
  coerce Number_toString v = None ↔ Uncoercible v.
Proof.
  unfold coerce. rewrite fmap_None.
  destruct v; try apply ToString_None.
  - simpl. split; [done|by inversion 1].
  - simpl. split; [done|by inversion 1].
Qed.

Lemma coerce_Coerces (v : JSValue number) (t : jsstring) :
  coerce Number_toString v = Some t ↔ Coerces Number_toString v t.
Proof.
  unfold coerce, Coerces. rewrite fmap_Some. split.
  - intros (s & Hs & ->). exists s. split; [done|apply trim_Trimmed].
  - intros (s & Hs & Ht). exists s. split; [done|].
    symmetry. by apply Trimmed_trim.
Qed.

(** *** The tokens *)

Lemma tokens_Some (items : list (JSValue number)) (ts : list jsstring) :
  tokens Number_toString items = Some ts →
  ∃ cs, Forall2 (fun v c => coerce Number_toString v = Some c) items cs
        ∧ ts = filter (fun value => (0 <? length value)%nat) cs.
Proof.
  unfold tokens. intros (cs & Hcs & ->)%fmap_Some.
  exists cs. split; [by apply mapM_Some_1|done].
Qed.

Lemma tokens_None (items : list (JSValue number)) :
  tokens Number_toString items = None ↔ ∃ v, v ∈ items ∧ Uncoercible v.
Proof.
  unfold tokens. rewrite fmap_None. split.
  - intros (v & Hv & Hnone)%mapM_None_1%Exists_exists.
    exists v. split; [done|by apply coerce_None].
  - intros (v & Hv & Hu). apply mapM_None_2, Exists_exists.
    exists v. split; [done|by apply coerce_None].
Qed.

Lemma tokens_coercible (items : list (JSValue number)) :
  Forall (fun v => is_Some (coerce Number_toString v)) items →
  ∃ ts, tokens Number_toString items = Some ts.
Proof.
  intros Hall. destruct (tokens Number_toString items) as [ts|] eqn:Ht;
    [by eauto|].
  apply tokens_None in Ht as (v & Hv & Hu).
  rewrite Forall_forall in Hall. apply Hall in Hv as [c Hc].
  apply coerce_None in Hu. congruence.
Qed.

Lemma tokens_elem (items : list (JSValue number)) (ts : list jsstring)
    (t : jsstring) :
  tokens Number_toString items = Some ts →
  t ∈ ts ↔ t ≠ [] ∧ ∃ v, v ∈ items ∧ coerce Number_toString v = Some t.
Proof.
  intros (cs & Hcs & ->)%tokens_Some.
  rewrite list_elem_of_filter. split.
  - intros [Hlen Ht]. split.
    + intros ->. done.
    + apply list_elem_of_lookup in Ht as [i Hi].
      destruct (Forall2_lookup_r _ _ _ _ _ Hcs Hi) as (v & Hv & Hc).
      exists v. split; [by eapply list_elem_of_lookup_2|done].
  - intros [Hne (v & Hv & Hc)]. split.
    + by destruct t.
    + apply list_elem_of_lookup in Hv as [i Hi].
      destruct (Forall2_lookup_l _ _ _ _ _ Hcs Hi) as (c & Hc' & Hvc).
      assert (c = t) as -> by congruence.
      by eapply list_elem_of_lookup_2.
Qed.

(** The tokens the handler computes are the trimmed non-empty tokens of the
    specification. *)
Lemma tokens_IsToken (items : list (JSValue number)) (ts : list jsstring)
    (t : jsstring) :
  tokens Number_toString items = Some ts →
  t ∈ ts ↔ IsToken Number_toString items t.
Proof.
  intros Hts. rewrite (tokens_elem _ _ _ Hts). unfold IsToken.
  split; intros [Hne (v & Hv & Hc)]; (split; [done|]); exists v;
    (split; [done|]); by apply coerce_Coerces.
Qed.

Lemma uniqueHandles_IsToken (items : list (JSValue number))
    (unique : list jsstring) (t : jsstring) :
  uniqueHandles Number_toString items = Some unique →
  t ∈ unique ↔ IsToken Number_toString items t.
Proof.
  unfold uniqueHandles. intros (ts & Hts & ->)%fmap_Some.
  rewrite Set_from_elem. by apply tokens_IsToken.
Qed.

Lemma uniqueHandles_NoDup (items : list (JSValue number))
    (unique : list jsstring) :
  uniqueHandles Number_toString items = Some unique → NoDup unique.
Proof.
  unfold uniqueHandles. intros (ts & Hts & ->)%fmap_Some.
  apply Set_from_NoDup.
Qed.

(** The number of handles is the number of distinct tokens, however the set
    of the tokens is given. *)
Lemma uniqueHandles_size (items : list (JSValue number))
    (unique : list jsstring) (X : gset jsstring) :
  uniqueHandles Number_toString items = Some unique →
  (∀ t, t ∈ X ↔ IsToken Number_toString items t) →
  length unique = size X.
Proof.
  intros Hu HX.
  rewrite <-(size_list_to_set (C:=gset jsstring) unique)
    by (by eapply uniqueHandles_NoDup).
  f_equal. apply set_eq. intros t.
  rewrite elem_of_list_to_set, HX. by apply uniqueHandles_IsToken.
Qed.

(** The handles stand in the order in which the elements they come from
    first occur: a handle comes from an element before which no element
    gives a handle that stands later. *)
Lemma uniqueHandles_order (items : list (JSValue number))
    (unique : list jsstring) (i j : nat) (x y : jsstring) :
  uniqueHandles Number_toString items = Some unique →
  unique !! i = Some x → unique !! j = Some y → (i < j)%nat →
  ∃ before v after,
    items = before ++ v :: after
    ∧ Coerces Number_toString v x
    ∧ ∀ w, w ∈ before → ¬ Coerces Number_toString w y.
Proof.
  intros Hu Hi Hj Hij.
  assert (IsToken Number_toString items y) as [Hy _].
  { eapply uniqueHandles_IsToken; [done|]. by eapply list_elem_of_lookup_2. }
  unfold uniqueHandles in Hu. apply fmap_Some in Hu as (ts & Hts & ->).
  destruct (Set_from_first _ _ _ _ _ Hi Hj Hij) as (ts1 & ts2 & Heq & Hnot).
  apply tokens_Some in Hts as (cs & Hcs & Hfilter).
  rewrite Heq in Hfilter. symmetry in Hfilter.
  apply filter_split in Hfilter as (cs1 & cs2 & -> & Hcs1).
  apply Forall2_app_inv_r in Hcs as (before & rest & Hb & Hrest & ->).
  apply Forall2_cons_inv_r in Hrest as (v & after & Hv & _ & ->).
  exists before, v, after. split_and!; [done|by apply coerce_Coerces|].
  intros w Hw Hwy%coerce_Coerces. apply Hnot. rewrite <-Hcs1.
  apply list_elem_of_filter. split; [by destruct y|].
  apply list_elem_of_lookup in Hw as [k Hk].
  destruct (Forall2_lookup_l _ _ _ _ _ Hb Hk) as (c & Hc & Hwc).
  assert (c = y) as -> by congruence.
  by eapply list_elem_of_lookup_2.
Qed.

(** *** The three ways the handler ends *)

(** A request with at least one token is answered with status 200 and the
    partition of the settled results; the resolver is called once per
    distinct token, in order. *)
Lemma POST_accepts (items : list (JSValue number)) (unique : list jsstring) :
  uniqueHandles Number_toString items = Some unique → unique ≠ [] →
  POST Number_toString fetch (mkRequest (Some (JArray items))) [] =
    (Some (mkResponse 200
             (ResultBody
                (mkAnalyzeResponse
                   (omap (success_of ∘ fetch) unique)
                   (omap (fun h => failure_of h (fetch h)) unique)))),
     unique).
Proof.
  intros Hu Hne. unfold POST. cbn [handles isArray].
  destruct items as [|v items].
  { vm_compute in Hu. congruence. }
  change (length (v :: items) =? 0)%nat with false. cbv iota.
  rewrite Hu. destruct unique as [|h hs]; [done|].
  change (length (h :: hs) =? 0)%nat with false. cbv iota.
  unfold bind. rewrite allSettled_run. unfold ret. simpl app.
  by rewrite (forEach_run (h :: hs) (h :: hs) _ 0).
Qed.

(** A request without a token is refused, and the resolver is not called. *)
Lemma POST_refuses (payload : AnalyzeRequest number) :
  match isArray (handles payload) with
  | Some items => uniqueHandles Number_toString items = Some []
  | None => True
  end →
  ∃ m, POST Number_toString fetch payload [] =
         (Some (mkResponse 400 (MessageBody m)), [])
       ∧ m ≠ [].
Proof.
  unfold POST. destruct (isArray (handles payload)) as [items|].
  - intros Hu. destruct items as [|v items].
    + eexists. split; [reflexivity|]. by vm_compute.
    + change (length (v :: items) =? 0)%nat with false. cbv iota.
      rewrite Hu. simpl. eexists. split; [reflexivity|]. by vm_compute.
  - intros _. eexists. split; [reflexivity|]. by vm_compute.
Qed.

(** When [String] throws on an element the handler throws, and the
    resolver is not called. *)
Lemma POST_throws (items : list (JSValue number)) :
  uniqueHandles Number_toString items = None →
  POST Number_toString fetch (mkRequest (Some (JArray items))) [] = (None, []).
Proof.
  intros Hu. unfold POST. cbn [handles isArray].
  destruct items as [|v items].
  { vm_compute in Hu. congruence. }
  change (length (v :: items) =? 0)%nat with false. cbv iota.
  by rewrite Hu.
Qed.


Lemma POST_cases (payload : AnalyzeRequest number) :
  (match isArray (handles payload) with
   | Some items => uniqueHandles Number_toString items = Some []
   | None => True
   end
   ∧ ∃ m, POST Number_toString fetch payload [] =
            (Some (mkResponse 400 (MessageBody m)), [])
          ∧ m ≠ [])
  ∨ (∃ items, payload = mkRequest (Some (JArray items))
              ∧ uniqueHandles Number_toString items = None
              ∧ POST Number_toString fetch payload [] = (None, []))
  ∨ (∃ items unique,
       payload = mkRequest (Some (JArray items))
       ∧ uniqueHandles Number_toString items = Some unique
       ∧ unique ≠ []
       ∧ POST Number_toString fetch payload [] =
           (Some (mkResponse 200
                    (ResultBody
                       (mkAnalyzeResponse
                          (omap (success_of ∘ fetch) unique)
                          (omap (fun h => failure_of h (fetch h)) unique)))),
            unique)).
Proof.
  destruct (isArray (handles payload)) as [items|] eqn:Harr.
  - assert (payload = mkRequest (Some (JArray items))) as ->.
    { destruct payload as [[v|]]; [|done]. destruct v; try done.
      cbn in Harr. congruence. }
    destruct (uniqueHandles Number_toString items) as [[|h hs]|] eqn:Hu.
    + left. split; [done|]. apply POST_refuses. cbn [handles isArray]. done.
    + right. right. exists items, (h :: hs). split_and!; [done..|].
      by apply POST_accepts.
    + right. left. exists items. split_and!; [done..|]. by apply POST_throws.
  - left. split; [done|]. apply POST_refuses. by rewrite Harr.
Qed.

Lemma partition_length (l : list jsstring) :
  (length (omap (success_of ∘ fetch) l)
   + length (omap (fun h => failure_of h (fetch h)) l))%nat = length l.
Proof.
  unfold omap. induction l as [|h l IH]; simpl; [done|].
  destruct (fetch h); simpl; lia.
Qed.

Lemma failures_handles (l : list jsstring) :
  entry_handle <$> omap (fun h => failure_of h (fetch h)) l =
  filter (fun h => success_of (fetch h) = None) l.
Proof.
  unfold omap. induction l as [|h l IH]; simpl; [done|].
  rewrite filter_cons. destruct (fetch h) as [value|reason]; simpl.
  - exact IH.
  - f_equal. exact IH.
Qed.

Lemma resolver_calls_array (items : list (JSValue number)) :
  resolver_calls Number_toString fetch (mkRequest (Some (JArray items))) =
  default [] (uniqueHandles Number_toString items).
Proof.
  unfold resolver_calls.
  destruct (uniqueHandles Number_toString items) as [[|h hs]|] eqn:Hu.
  - destruct (POST_refuses (mkRequest (Some (JArray items))))
      as (m & -> & _); simpl; done.
  - by rewrite (POST_accepts _ _ Hu).
  - by rewrite (POST_throws _ Hu).
Qed.

Lemma resolver_calls_coercible (items : list (JSValue number)) :
  Forall (fun v => is_Some (coerce Number_toString v)) items →
  uniqueHandles Number_toString items =
    Some (resolver_calls Number_toString fetch
            (mkRequest (Some (JArray items)))).
Proof.
  intros [ts Hts]%tokens_coercible. rewrite resolver_calls_array.
  unfold uniqueHandles. by rewrite Hts.
Qed.

(** C1 (partition invariant).  When the elements of the request coerce to
    strings and the deduplicated handle list is not empty, the handler
    answers 200 with a result whose two tracks together have as many entries
    as there are distinct trimmed non-empty input tokens: the handles are
    these tokens, the successes are the values of the fulfilled calls, the
    errors are one entry per rejected call, no handle has two error entries,
    and every dispatched handle is in exactly one track. *)
Theorem partition_invariant (items : list (JSValue number))
    (unique : list jsstring) :
  uniqueHandles Number_toString items = Some unique →
  unique ≠ [] →
  ∃ response,
    respond Number_toString fetch (mkRequest (Some (JArray items))) =
      Some (mkResponse 200 (ResultBody response))
    ∧ (∀ t, t ∈ unique ↔ IsToken Number_toString items t)
    ∧ (∀ X : gset jsstring,
         (∀ t, t ∈ X ↔ IsToken Number_toString items t) →
         (length (data response) + length (errors response))%nat = size X)
    ∧ data response = omap (success_of ∘ fetch) unique
    ∧ errors response = omap (fun h => failure_of h (fetch h)) unique
    ∧ NoDup (entry_handle <$> errors response)
    ∧ ∀ h, h ∈ unique →
        (∃ value, fetch h = fulfilled value ∧ value ∈ data response
                  ∧ h ∉ entry_handle <$> errors response)
        ∨ (∃ reason, fetch h = rejected reason
                     ∧ mkErrorEntry h (error_message reason) ∈ errors response).
Proof.
  intros Hu Hne. eexists. unfold respond. rewrite (POST_accepts _ _ Hu Hne).
  cbn [fst]. split; [reflexivity|]. cbn [data errors]. split_and!.
  - intros t. by apply uniqueHandles_IsToken.
  - intros X HX. rewrite partition_length. by eapply uniqueHandles_size.
  - done.
  - done.
  - rewrite failures_handles. eapply NoDup_filter, uniqueHandles_NoDup. done.
  - intros h Hh. destruct (fetch h) as [value|reason] eqn:Hf.
    + left. exists value. split_and!; [done| |].
      * apply list_elem_of_omap. exists h. split; [done|].
        simpl. by rewrite Hf.
      * rewrite failures_handles, list_elem_of_filter, Hf. simpl.
        intros [? _]. done.
    + right. exists reason. split; [done|].
      apply list_elem_of_omap. exists h. split; [done|]. by rewrite Hf.
Qed.

(** C2 (dedup invariant).  For a list whose elements coerce to strings the
    resolver is called with the distinct trimmed non-empty tokens of the
    list, the tokens being described as the specification does and not by
    the code: no handle twice, a handle exactly for each token, as many
    calls as the set of the tokens has elements, the handles in the order
    in which their tokens first occur in the list; a list with the same
    tokens, in whatever order and however often, causes as many calls. *)
Theorem dedup_invariant (items : list (JSValue number)) :
  Forall (fun v => is_Some (coerce Number_toString v)) items →
  let calls :=
    resolver_calls Number_toString fetch (mkRequest (Some (JArray items))) in
  NoDup calls
  ∧ (∀ t, t ∈ calls ↔ IsToken Number_toString items t)
  ∧ (∀ X : gset jsstring,
       (∀ t, t ∈ X ↔ IsToken Number_toString items t) →
       length calls = size X)
  ∧ (∀ i j x y, calls !! i = Some x → calls !! j = Some y → (i < j)%nat →
       ∃ before v after,
         items = before ++ v :: after
         ∧ Coerces Number_toString v x
         ∧ ∀ w, w ∈ before → ¬ Coerces Number_toString w y)
  ∧ (∀ items' : list (JSValue number),
       Forall (fun v => is_Some (coerce Number_toString v)) items' →
       (∀ t, IsToken Number_toString items' t
             ↔ IsToken Number_toString items t) →
       length (resolver_calls Number_toString fetch
                 (mkRequest (Some (JArray items')))) = length calls).
Proof.
  intros Hall calls. subst calls.
  pose proof (resolver_calls_coercible items Hall) as Hu.
  split_and!.
  - by eapply uniqueHandles_NoDup.
  - intros t. by apply uniqueHandles_IsToken.
  - intros X HX. by eapply uniqueHandles_size.
  - intros i j x y. by apply uniqueHandles_order.
  - intros items' Hall' Hsame.
    pose proof (resolver_calls_coercible items' Hall') as Hu'.
    set (X := list_to_set
                (resolver_calls Number_toString fetch
                   (mkRequest (Some (JArray items)))) : gset jsstring).
    assert (∀ t, t ∈ X ↔ IsToken Number_toString items t) as HX.
    { intros t. unfold X. rewrite elem_of_list_to_set.
      by apply uniqueHandles_IsToken. }
    rewrite (uniqueHandles_size _ _ X Hu HX).
    apply (uniqueHandles_size _ _ X Hu'). intros t. by rewrite HX, Hsame.
Qed.

(** C4 (all-failing batch), amended.  When the resolver rejects the single
    handle ["@doesnotexist123456"], the answer has status 200, no data and
    one error entry whose handle is the submitted string, the [@] included.
    Its message is not empty as soon as a [SocialbladeError] carries a
    message; a reason of another kind with an empty message gets the generic
    one. *)
Theorem all_failing_batch (reason : Error) :
  fetch (js "@doesnotexist123456") = rejected reason →
  (isSocialbladeError reason = true → message reason ≠ []) →
  ∃ m,
    respond Number_toString fetch
      (mkRequest (Some (JArray [JString (js "@doesnotexist123456")]))) =
      Some (mkResponse 200
              (ResultBody
                 (mkAnalyzeResponse []
                    [mkErrorEntry (js "@doesnotexist123456") m])))
    ∧ m ≠ []
    ∧ m = error_message reason
    ∧ (isSocialbladeError reason = false → message reason = [] →
       m = js "An unexpected error occurred.")
    ∧ resolver_calls Number_toString fetch
        (mkRequest (Some (JArray [JString (js "@doesnotexist123456")]))) =
        [js "@doesnotexist123456"].
Proof.
  intros Hf Hmsg. exists (error_message reason).
  unfold respond, resolver_calls.
  rewrite (POST_accepts _ [js "@doesnotexist123456"]) by (by vm_compute).
  simpl. rewrite Hf. simpl. split_and!; try done.
  - unfold error_message. destruct (isSocialbladeError reason); [by auto|].
    destruct (message reason); by vm_compute.
  - intros Hk Hm. unfold error_message. by rewrite Hk, Hm.
Qed.

Lemma EmptyInput_no_token (payload : AnalyzeRequest number) :
  EmptyInput Number_toString payload →
  match isArray (handles payload) with
  | Some items => uniqueHandles Number_toString items = Some []
  | None => True
  end.
Proof.
  intros [|v Hv| |items Hitems]; cbn [handles].
  - done.
  - by rewrite Hv.
  - done.
  - cbn [isArray].
    destruct (tokens_coercible items) as [ts Hts].
    { apply Forall_forall. intros v Hv. rewrite (Hitems v Hv). by eexists. }
    unfold uniqueHandles. rewrite Hts. simpl. f_equal.
    destruct (Set_from ts) as [|t u] eqn:Hu; [done|].
    assert (t ∈ ts) as Ht.
    { apply Set_from_elem. rewrite Hu. by left. }
    apply (tokens_elem _ _ _ Hts) in Ht as [Hne (v & Hv & Hc)].
    rewrite (Hitems v Hv) in Hc. congruence.
Qed.


(** C5 (empty-input rejection).  A request whose [handles] is missing, is
    not an array, is empty, or leaves no token after trimming is answered
    with status 400 and a non-empty message, and causes no resolver call. *)
Theorem empty_input_rejection (payload : AnalyzeRequest number) :
  EmptyInput Number_toString payload →
  ∃ m,
    respond Number_toString fetch payload =
      Some (mkResponse 400 (MessageBody m))
    ∧ m ≠ []
    ∧ resolver_calls Number_toString fetch payload = [].
Proof.
  intros Hp.
  destruct (POST_refuses payload) as (m & HP & Hm).
  - by apply EmptyInput_no_token.
  - exists m. unfold respond, resolver_calls. by rewrite HP.
Qed.


End AnalyzeTheory.

(** *** Examples of the batch aggregator *)

Lemma partition_invariant_witness :
  uniqueHandles decimal sample_items =
    Some [js "@nasa"; js "42"; js "@doesnotexist123456"]
  ∧ [js "@nasa"; js "42"; js "@doesnotexist123456"] ≠ []
  ∧ ∃ response,
      respond decimal sample_resolver (mkRequest (Some (JArray sample_items))) =
        Some (mkResponse 200 (ResultBody response))
      ∧ (length (data response) + length (errors response))%nat = 3%nat
      ∧ entry_handle <$> errors response =
          [js "42"; js "@doesnotexist123456"].
Proof.
  assert (uniqueHandles decimal sample_items =
            Some [js "@nasa"; js "42"; js "@doesnotexist123456"]) as Hu
    by (by vm_compute).
  assert ([js "@nasa"; js "42"; js "@doesnotexist123456"] ≠ []) as Hne
    by done.
  split; [exact Hu|]. split; [exact Hne|].
  destruct (partition_invariant decimal sample_resolver sample_items _ Hu Hne)
    as (response & Hr & _ & _ & Hdata & Herrors & _).
  exists response. split; [exact Hr|].
  rewrite Hdata, Herrors. split; by vm_compute.
Defined.

Lemma dedup_invariant_witness :
  Forall (fun v => is_Some (coerce decimal v)) padded_items
  ∧ resolver_calls decimal sample_resolver
      (mkRequest (Some (JArray padded_items))) =
      [js "a"; js "@nasa"; js "42"]
  ∧ NoDup (resolver_calls decimal sample_resolver
             (mkRequest (Some (JArray padded_items))))
  ∧ IsToken decimal padded_items (js "@nasa")
  ∧ length (resolver_calls decimal sample_resolver
              (mkRequest (Some (JArray (reverse padded_items))))) = 3%nat.
Proof.
  assert (Forall (fun v => is_Some (coerce decimal v)) padded_items) as Hall.
  { repeat (constructor; [by eexists|]). constructor. }
  destruct (dedup_invariant decimal sample_resolver padded_items Hall)
    as (Hnd & Helem & _ & _ & Hsame).
  split_and!.
  - exact Hall.
  - by vm_compute.
  - exact Hnd.
  - apply Helem. vm_compute. right. left.
  - by vm_compute.
Defined.

(** C4, as stated, fails: the error entry carries the submitted handle with
    its [@], not the bare name. *)
Lemma all_failing_batch_counterexample :
  respond decimal sample_resolver
    (mkRequest (Some (JArray [JString (js "@doesnotexist123456")]))) =
    Some (mkResponse 200
            (ResultBody
               (mkAnalyzeResponse []
                  [mkErrorEntry (js "@doesnotexist123456")
                     (js "Account not found")])))
  ∧ js "@doesnotexist123456" ≠ js "doesnotexist123456".
Proof. split; by vm_compute. Qed.

Lemma all_failing_batch_witness :
  sample_resolver (js "@doesnotexist123456") =
    rejected (mkError true (js "Account not found"))
  ∧ (isSocialbladeError (mkError true (js "Account not found")) = true →
     message (mkError true (js "Account not found")) ≠ [])
  ∧ ∃ m,
      respond decimal sample_resolver
        (mkRequest (Some (JArray [JString (js "@doesnotexist123456")]))) =
        Some (mkResponse 200
                (ResultBody
                   (mkAnalyzeResponse []
                      [mkErrorEntry (js "@doesnotexist123456") m])))
      ∧ m ≠ [].
Proof.
  assert (sample_resolver (js "@doesnotexist123456") =
            rejected (mkError true (js "Account not found"))) as Hf
    by (by vm_compute).
  assert (isSocialbladeError (mkError true (js "Account not found")) = true →
          message (mkError true (js "Account not found")) ≠ []) as Hm
    by (by vm_compute).
  split; [exact Hf|]. split; [exact Hm|].
  destruct (all_failing_batch decimal sample_resolver _ Hf Hm)
    as (m & Hr & Hne & _).
  exists m. split; [exact Hr|exact Hne].
Defined.

Lemma empty_input_rejection_witness :
  EmptyInput decimal (mkRequest (Some (JArray blank_items)))
  ∧ ∃ m,
      respond decimal sample_resolver (mkRequest (Some (JArray blank_items))) =
        Some (mkResponse 400 (MessageBody m))
      ∧ m ≠ []
      ∧ resolver_calls decimal sample_resolver
          (mkRequest (Some (JArray blank_items))) = [].
Proof.
  assert (EmptyInput decimal (mkRequest (Some (JArray blank_items)))) as He.
  { apply handles_no_token. intros v Hv.
    unfold blank_items in Hv. rewrite !elem_of_cons in Hv.
    destruct Hv as [->|[->|[->|[->|Hv]]]]; [by vm_compute..|].
    by apply elem_of_nil in Hv. }
  split; [exact He|].
  exact (empty_input_rejection decimal sample_resolver _ He).
Defined.


(** ** Numerals *)

Lemma digits_lsf_value (fuel : nat) (n : N) :
  n < 2 ^ N.of_nat fuel →
  foldr (fun d acc => d + 10 * acc) 0 (digits_lsf fuel n) = n.
Proof.
  revert n. induction fuel as [|fuel IH]; intros n Hn.
  - simpl in *. lia.
  - cbn [digits_lsf foldr].
    destruct (N.eqb_spec (n / 10) 0) as [H0|H0].
    + simpl. pose proof (N.div_mod n 10). lia.
    + rewrite IH.
      * pose proof (N.div_mod n 10). lia.
      * rewrite Nat2N.inj_succ, N.pow_succ_r' in Hn.
        assert (n / 10 <= n / 2) by (apply N.div_le_compat_l; lia).
        assert (n / 2 < 2 ^ N.of_nat fuel) by (apply N.Div0.div_lt_upper_bound; lia).
        lia.
Qed.

Lemma digits_lsf_digit (fuel : nat) (n : N) :
  Forall (fun d => d < 10) (digits_lsf fuel n).
Proof.
  revert n. induction fuel as [|fuel IH]; intros n; cbn [digits_lsf].
  - constructor.
  - constructor.
    + apply N.mod_lt. lia.
    + destruct (n / 10 =? 0); [constructor|apply IH].
Qed.

Lemma digits_lsf_length (fuel : nat) (n : N) (k : nat) :
  n < 10 ^ N.of_nat (S k) → (length (digits_lsf fuel n) <= S k)%nat.
Proof.
  revert n k. induction fuel as [|fuel IH]; intros n k Hn; cbn [digits_lsf].
  - simpl. lia.
  - destruct (N.eqb_spec (n / 10) 0) as [H0|H0]; simpl; [lia|].
    destruct k as [|k].
    + change (10 ^ N.of_nat 1) with 10 in Hn.
      rewrite N.div_small in H0 by lia. done.
    + apply le_n_S, IH.
      rewrite Nat2N.inj_succ, N.pow_succ_r' in Hn.
      apply N.Div0.div_lt_upper_bound. lia.
Qed.

Lemma size_nat_bound (n : N) : n < 2 ^ N.of_nat (S (N.size_nat n)).
Proof.
  destruct n as [|p]; [done|].
  rewrite Nat2N.inj_succ, N.pow_succ_r'.
  assert (N.pos p < 2 ^ N.of_nat (N.size_nat (N.pos p))); [|lia].
  simpl. induction p as [p IH|p IH|]; simpl Pos.size_nat.
  - rewrite Nat2N.inj_succ, N.pow_succ_r'. lia.
  - rewrite Nat2N.inj_succ, N.pow_succ_r'. lia.
  - done.
Qed.

Lemma numeral_value_snoc (s : jsstring) (c : N) :
  numeral_value (s ++ [c]) = 10 * numeral_value s + (c - 48).
Proof. unfold numeral_value. by rewrite foldl_app. Qed.

Lemma numeral_value_reverse (ds : list N) :
  numeral_value (reverse (map (fun d => 48 + d) ds)) =
  foldr (fun d acc => d + 10 * acc) 0 ds.
Proof.
  induction ds as [|d ds IH]; [done|].
  simpl. rewrite reverse_cons, numeral_value_snoc, IH. lia.
Qed.

(** The numeral of [n] reads back as [n]. *)
Lemma numeral_value_decimal (n : N) : numeral_value (decimal n) = n.
Proof.
  unfold decimal. rewrite numeral_value_reverse.
  apply digits_lsf_value, size_nat_bound.
Qed.

Lemma decimal_digits (n : N) : Forall (fun c => isDigit c = true) (decimal n).
Proof.
  unfold decimal. apply Forall_forall. intros c Hc.
  rewrite elem_of_reverse in Hc.
  change (map ?f ?l) with (f <$> l) in Hc.
  apply list_elem_of_fmap in Hc as (d & -> & Hd).
  pose proof (digits_lsf_digit (S (N.size_nat n)) n) as Hall.
  rewrite Forall_forall in Hall. apply Hall in Hd.
  unfold isDigit. apply andb_true_iff. split; apply N.leb_le; lia.
Qed.

Lemma decimal_nonempty (n : N) : decimal n ≠ [].
Proof.
  unfold decimal. cbn [digits_lsf map].
  intros H. apply (f_equal (@length N)) in H.
  rewrite length_reverse in H. simpl in H. lia.
Qed.

Lemma numeral_value_bound (s : jsstring) :
  Forall (fun c => isDigit c = true) s →
  numeral_value s < 10 ^ N.of_nat (length s).
Proof.
  induction s as [|c s IH] using rev_ind; intros Hs.
  - done.
  - apply Forall_app in Hs as [Hs Hc]. apply Forall_inv in Hc.
    rewrite numeral_value_snoc, length_app. simpl length.
    rewrite Nat.add_1_r, Nat2N.inj_succ, N.pow_succ_r'.
    specialize (IH Hs). unfold isDigit in Hc.
    apply andb_true_iff in Hc as [H1%N.leb_le H2%N.leb_le]. lia.
Qed.

(** A numeral has at most three digits exactly when the number is below one
    thousand. *)
Lemma decimal_length_small (n : N) :
  (length (decimal n) <= 3)%nat ↔ n < 1000.
Proof.
  split.
  - intros Hlen. pose proof (numeral_value_bound _ (decimal_digits n)) as Hb.
    rewrite numeral_value_decimal in Hb.
    assert (10 ^ N.of_nat (length (decimal n)) <= 10 ^ 3); [|lia].
    apply N.pow_le_mono_r; lia.
  - intros Hn. unfold decimal. rewrite length_reverse, length_map.
    apply digits_lsf_length. done.
Qed.

(** ** Grouping *)

Lemma group_lsf_short (ds : jsstring) :
  (length ds <= 3)%nat → group_lsf ds = ds.
Proof.
  destruct ds as [|a [|b [|c [|d rest]]]]; simpl; intros; (done || lia).
Qed.

Lemma group_lsf_long (ds : jsstring) :
  (4 <= length ds)%nat → comma ∈ group_lsf ds.
Proof.
  destruct ds as [|a [|b [|c [|d rest]]]]; simpl; intros; try lia.
  do 3 right. by left.
Qed.

Lemma group_lsf_step (a b c d : N) (rest : jsstring) :
  group_lsf (a :: b :: c :: d :: rest) =
  a :: b :: c :: comma :: group_lsf (d :: rest).
Proof. reflexivity. Qed.

Lemma filter_all {A} (P : A → Prop) `{!∀ x, Decision (P x)} (l : list A) :
  Forall P l → filter P l = l.
Proof.
  induction 1 as [|x l Hx Hl IH]; [done|].
  by rewrite filter_cons_True, IH.
Qed.

Lemma group_lsf_filter (ds : jsstring) :
  Forall (fun c => c ≠ comma) ds →
  filter (fun c => c ≠ comma) (group_lsf ds) = ds.
Proof.
  remember (length ds) as n eqn:Hn.
  revert ds Hn. induction n as [n IH] using lt_wf_ind. intros ds Hn Hall.
  destruct ds as [|a [|b [|c [|d rest]]]].
  1-4: cbn [group_lsf]; by apply filter_all.
  rewrite group_lsf_step.
  apply Forall_cons in Hall as [Ha Hall].
  apply Forall_cons in Hall as [Hb Hall].
  apply Forall_cons in Hall as [Hc Hall].
  rewrite !filter_cons, !decide_True by done.
  rewrite decide_False by (intros H; by apply H).
  do 3 f_equal. apply (IH (length (d :: rest))); [|done|done].
  subst n. simpl. lia.
Qed.

Lemma group_lsf_elem (ds : jsstring) (c : N) :
  c ∈ group_lsf ds → c ∈ ds ∨ c = comma.
Proof.
  remember (length ds) as n eqn:Hn.
  revert ds Hn. induction n as [n IH] using lt_wf_ind. intros ds Hn.
  destruct ds as [|a [|b [|x [|d rest]]]]; try (cbn [group_lsf]; tauto).
  rewrite group_lsf_step, !elem_of_cons.
  intros [->|[->|[->|[->|Hc]]]]; [naive_solver..|].
  assert (c ∈ d :: rest ∨ c = comma) as Hc'.
  { eapply IH; [|reflexivity|exact Hc]. subst n. simpl. lia. }
  rewrite elem_of_cons in Hc'.
  destruct Hc' as [[->|Hr]| ->]; [left|left|by right].
  - do 3 right. by left.
  - by do 4 right.
Qed.

Lemma digit_not_comma (s : jsstring) :
  Forall (fun c => isDigit c = true) s → Forall (fun c => c ≠ comma) s.
Proof.
  intros Hs. eapply Forall_impl; [exact Hs|].
  intros c Hc ->. by vm_compute in Hc.
Qed.

Lemma grouped_strip (n : N) :
  filter (fun c => c ≠ comma) (grouped n) = decimal n.
Proof.
  unfold grouped. rewrite filter_reverse, group_lsf_filter.
  - apply reverse_involutive.
  - apply Forall_reverse, digit_not_comma, decimal_digits.
Qed.

Lemma grouped_small (n : N) : n < 1000 → grouped n = decimal n.
Proof.
  intros Hn. unfold grouped. rewrite group_lsf_short.
  - apply reverse_involutive.
  - rewrite length_reverse. by apply decimal_length_small.
Qed.

Lemma grouped_large (n : N) : 1000 <= n → comma ∈ grouped n.
Proof.
  intros Hn. unfold grouped. apply elem_of_reverse, group_lsf_long.
  rewrite length_reverse.
  destruct (decide (length (decimal n) <= 3)%nat) as [Hl|Hl]; [|lia].
  apply decimal_length_small in Hl. lia.
Qed.

Lemma grouped_chars (n : N) :
  Forall (fun c => isDigit c = true ∨ c = comma) (grouped n).
Proof.
  apply Forall_forall. intros c Hc. unfold grouped in Hc.
  rewrite elem_of_reverse in Hc.
  apply group_lsf_elem in Hc as [Hc|Hc]; [left|by right].
  rewrite elem_of_reverse in Hc.
  pose proof (decimal_digits n) as Hall. rewrite Forall_forall in Hall. auto.
Qed.

Lemma needsEscape_comma (s : jsstring) : comma ∈ s → needsEscape s = true.
Proof.
  intros Hs. unfold needsEscape. apply existsb_exists.
  exists comma. split; [by apply list_elem_of_In|done].
Qed.

Lemma doubleQuotes_none (s : jsstring) :
  Forall (fun c => c ≠ quote) s → doubleQuotes s = s.
Proof.
  unfold doubleQuotes. induction 1 as [|c s Hc Hs IH]; [done|].
  simpl. rewrite IH. destruct (N.eqb_spec c quote); done.
Qed.

(** A grouped numeral with a comma is quoted as a whole by [csvField]. *)
Lemma csvField_grouped (n : N) :
  1000 <= n → csvField (grouped n) = [quote] ++ grouped n ++ [quote].
Proof.
  intros Hn. unfold csvField.
  rewrite needsEscape_comma by by apply grouped_large.
  rewrite doubleQuotes_none; [done|].
  eapply Forall_impl; [apply grouped_chars|].
  intros c [Hc| ->] Hq; [subst c|]; by vm_compute in *.
Qed.

(** ** Numbers *)

Lemma Qneg_N2Q (n : N) : Qneg (N2Q n) = false.
Proof.
  unfold Qneg, N2Q, Qle_bool, inject_Z. simpl.
  apply negb_false_iff, Z.leb_le. lia.
Qed.

Lemma round_half_up_inject (z : Z) :
  (0 <= z)%Z → round_half_up (inject_Z z) = Z.to_N z.
Proof.
  intros Hz. unfold round_half_up, inject_Z, Qplus, Qfloor. simpl.
  f_equal. change (Z.pos (1 * 2)) with 2%Z. change (1 * 1)%Z with 1%Z.
  rewrite Z.div_add_l by lia. change (1 `div` 2)%Z with 0%Z. lia.
Qed.

Lemma standardNumber_format_N2Q (n : N) :
  standardNumber_format (N2Q n) = grouped n.
Proof.
  unfold standardNumber_format. rewrite Qneg_N2Q. simpl app.
  f_equal. unfold N2Q.
  rewrite Z.abs_eq by lia. change (Z.of_N n # 1) with (inject_Z (Z.of_N n)).
  rewrite round_half_up_inject by lia. apply N2Z.id.
Qed.

Lemma numeral_value_zeros (j : nat) (s : jsstring) :
  numeral_value (replicate j 48 ++ s) = numeral_value s.
Proof. induction j as [|j IH]; [done|]. exact IH. Qed.

(** ** The exports *)

Section ExportTheory.

Variable Number_toString : Q -> jsstring.

Lemma toFixed2_shape (x : Q) :
  (Qabs x < inject_Z (10 ^ 21))%Q →
  ∃ a b,
    toFixed2 Number_toString x =
      (if Qneg x then js "-" else []) ++ a ++ js "." ++ b
    ∧ a ≠ []
    ∧ length b = 2%nat
    ∧ Forall (fun c => isDigit c = true) (a ++ b)
    ∧ numeral_value (a ++ b) = round_half_up (Qabs x * inject_Z 100).
Proof.
  intros Hx. unfold toFixed2.
  destruct (Qle_bool (inject_Z (10 ^ 21)) (Qabs x)) eqn:Hbig.
  { apply Qle_bool_iff in Hbig. lra. }
  set (n := round_half_up (Qabs x * inject_Z 100)).
  set (m := if (length (decimal n) <=? 2)%nat
            then replicate (2 + 1 - length (decimal n)) 48 ++ decimal n
            else decimal n).
  assert (3 <= length m)%nat as Hlen.
  { subst m. destruct (Nat.leb_spec (length (decimal n)) 2) as [Hk|Hk].
    - rewrite length_app, length_replicate. lia.
    - lia. }
  exists (take (length m - 2) m), (drop (length m - 2) m).
  rewrite take_drop. split_and!.
  - done.
  - intros Ha. apply (f_equal (@length N)) in Ha.
    rewrite length_take in Ha. simpl in Ha. lia.
  - rewrite length_drop. lia.
  - subst m. destruct (length (decimal n) <=? 2)%nat.
    + apply Forall_app. split; [|apply decimal_digits].
      apply Forall_replicate. done.
    + apply decimal_digits.
  - subst m. destruct (length (decimal n) <=? 2)%nat.
    + by rewrite numeral_value_zeros, numeral_value_decimal.
    + apply numeral_value_decimal.
Qed.

Lemma formatCellForExport_count (row : InstagramMetrics)
    (column : ColumnDefinition) (n : N) :
  count_of row (key column) = Some n →
  formatCellForExport Number_toString row column = grouped n.
Proof.
  unfold formatCellForExport, count_of, field.
  destruct (key column); try done; intros ->; simpl;
    apply standardNumber_format_N2Q.
Qed.

(** C3 (numeric formatting of the CSV export), amended.  A count column
    (followers, average views, average likes), the count being below 2^53,
    is rendered as the decimal numeral of the count with the digits grouped
    by commas: taking the
    commas out leaves the plain numeral, a count below one thousand is
    plain, and a count from one thousand on holds a comma and ends up
    wrapped in double quotes in the CSV text.  The engagement rate, below
    10^21 in magnitude, is rendered as an optional sign, an integer part, a
    point and exactly two digits, the digits being those of the rate times
    one hundred rounded to the nearest integer. *)
Theorem csv_numeric_formatting (row : InstagramMetrics)
    (column : ColumnDefinition) :
  (∀ n, count_of row (key column) = Some n → n < 2 ^ 53 →
     formatCellForExport Number_toString row column = grouped n
     ∧ filter (fun c => c ≠ comma) (grouped n) = decimal n
     ∧ numeral_value (decimal n) = n
     ∧ (n < 1000 → formatCellForExport Number_toString row column = decimal n)
     ∧ (1000 <= n →
        comma ∈ formatCellForExport Number_toString row column
        ∧ csvField (formatCellForExport Number_toString row column) =
            [quote] ++ grouped n ++ [quote]))
  ∧ (∀ x, key column = key_engagementRate → engagementRate row = Some x →
     (Qabs x < inject_Z (10 ^ 21))%Q →
     ∃ a b,
       formatCellForExport Number_toString row column =
         (if Qneg x then js "-" else []) ++ a ++ js "." ++ b
       ∧ a ≠ []
       ∧ length b = 2%nat
       ∧ Forall (fun c => isDigit c = true) (a ++ b)
       ∧ numeral_value (a ++ b) = round_half_up (Qabs x * inject_Z 100)).
Proof.
  split.
  - intros n Hn _. rewrite (formatCellForExport_count _ _ _ Hn). split_and!.
    + done.
    + apply grouped_strip.
    + apply numeral_value_decimal.
    + apply grouped_small.
    + intros Hbig. split; [by apply grouped_large|by apply csvField_grouped].
  - intros x Hk Hx Hlt. unfold formatCellForExport, field.
    rewrite Hk, Hx. simpl. by apply toFixed2_shape.
Qed.

(** C7 (spreadsheet rows), amended.  [formatSummary] uses the friendlier
    labels, prefixes the handle with [@], and hands the counts and the
    engagement rate over as the numbers they are (an empty string when
    absent): no compact notation and no rounding to two decimals is
    applied. *)
Theorem spreadsheet_row_formatting (row : InstagramMetrics) :
  fst <$> formatSummary row =
    [ js "Name"; js "Handle"; js "Followers"; js "Avg. Views";
      js "Avg. Likes"; js "Engagement Rate (%)"; js "Category";
      js "Location" ]
  ∧ property (formatSummary row) (js "Handle") =
      Some (CellString (js "@" ++ handle row))
  ∧ property (formatSummary row) (js "Followers") =
      Some (from_option (CellNumber ∘ N2Q) (CellString []) (followers row))
  ∧ property (formatSummary row) (js "Avg. Views") =
      Some (from_option (CellNumber ∘ N2Q) (CellString []) (averageViews row))
  ∧ property (formatSummary row) (js "Avg. Likes") =
      Some (from_option (CellNumber ∘ N2Q) (CellString []) (averageLikes row))
  ∧ property (formatSummary row) (js "Engagement Rate (%)") =
      Some (from_option CellNumber (CellString []) (engagementRate row))
  ∧ (∀ name s,
       name ∈ [ js "Followers"; js "Avg. Views"; js "Avg. Likes";
                js "Engagement Rate (%)" ] →
       property (formatSummary row) name = Some (CellString s) → s = []).
Proof.
  destruct row as [dn h f v e c l k].
  split_and!; try reflexivity.
  - destruct f; by vm_compute.
  - destruct v; by vm_compute.
  - destruct k; by vm_compute.
  - intros name s Hname. rewrite !elem_of_cons in Hname.
    destruct Hname as [->|[->|[->|[->|Hname]]]].
    + destruct f; vm_compute; congruence.
    + destruct v; vm_compute; congruence.
    + destruct k; vm_compute; congruence.
    + destruct e; vm_compute; congruence.
    + by apply elem_of_nil in Hname.
Qed.

(** C8 (the CSV export does not depend on the sort).  Two states of the
    dashboard that hold the same records export the same text, whatever
    their sort columns and directions. *)
Theorem csv_export_sort_independent (st1 st2 : DashboardState) :
  rows st1 = rows st2 →
  exportCsv Number_toString st1 = exportCsv Number_toString st2.
Proof. intros Hrows. unfold exportCsv. by rewrite Hrows. Qed.

End ExportTheory.

(** ** The sort *)

Section InsertionSort.

Context {A : Type}.
Variable cmp : A -> A -> Q.

Lemma insert_Permutation (x : A) (l : list A) : insert cmp x l ≡ₚ x :: l.
Proof.
  induction l as [|y l IH]; simpl; [done|].
  destruct (Qle_bool (cmp x y) 0); [done|].
  rewrite IH. apply Permutation_swap.
Qed.

Lemma Array_sort_Permutation (l : list A) : Array_sort cmp l ≡ₚ l.
Proof.
  induction l as [|x l IH]; simpl; [done|].
  by rewrite insert_Permutation, IH.
Qed.

(** The sort is stable: elements none of which the comparator puts after
    another (tied elements, for one) keep the order they came in. *)
Lemma insert_stable (P : A → Prop) `{!∀ x, Decision (P x)} (x : A)
    (l : list A) :
  (∀ a b, P a → P b → Qle_bool (cmp a b) 0 = true) →
  filter P (insert cmp x l) = filter P (x :: l).
Proof.
  intros Htie. induction l as [|y l IH]; simpl; [done|].
  destruct (Qle_bool (cmp x y) 0) eqn:Hxy; [done|].
  rewrite (filter_cons _ y), IH, !(filter_cons _ x), (filter_cons _ y).
  destruct (decide (P x)) as [Hx|Hx], (decide (P y)) as [Hy|Hy]; try done.
  rewrite (Htie x y Hx Hy) in Hxy. done.
Qed.

Lemma Array_sort_stable (P : A → Prop) `{!∀ x, Decision (P x)} (l : list A) :
  (∀ a b, P a → P b → Qle_bool (cmp a b) 0 = true) →
  filter P (Array_sort cmp l) = filter P l.
Proof.
  intros Htie. induction l as [|x l IH]; simpl; [done|].
  by rewrite insert_stable, !filter_cons, IH.
Qed.

(** The sort orders its result by every transitive relation that the
    comparator refines. *)
Variable Rel : relation A.
Hypothesis Rel_trans : Transitive Rel.
Hypothesis cmp_le : ∀ a b, Qle_bool (cmp a b) 0 = true → Rel a b.
Hypothesis cmp_gt : ∀ a b, Qle_bool (cmp a b) 0 = false → Rel b a.

Lemma insert_StronglySorted (x : A) (l : list A) :
  StronglySorted Rel l → StronglySorted Rel (insert cmp x l).
Proof.
  induction 1 as [|y l Hl IH Hy]; simpl.
  - repeat constructor.
  - destruct (Qle_bool (cmp x y) 0) eqn:Hxy.
    + constructor; [by constructor|].
      constructor; [by apply cmp_le|].
      eapply Forall_impl; [exact Hy|]. intros z Hz.
      transitivity y; [by apply cmp_le|done].
    + constructor; [done|].
      rewrite insert_Permutation. constructor; [by apply cmp_gt|done].
Qed.

Lemma Array_sort_StronglySorted (l : list A) :
  StronglySorted Rel (Array_sort cmp l).
Proof.
  induction l as [|x l IH]; simpl; [constructor|].
  by apply insert_StronglySorted.
Qed.

End InsertionSort.

Lemma StronglySorted_lookup {A} (R : relation A) (l : list A) (i j : nat)
    (a b : A) :
  StronglySorted R l → l !! i = Some a → l !! j = Some b → (i < j)%nat →
  R a b.
Proof.
  intros Hl. revert i j. induction Hl as [|x l Hl IH Hx]; intros i j Hi Hj Hij.
  - done.
  - destruct i as [|i], j as [|j]; try lia; simpl in *.
    + injection Hi as <-. rewrite Forall_forall in Hx.
      apply Hx. by eapply list_elem_of_lookup_2.
    + apply (IH i j); [done|done|lia].
Qed.

Lemma Qle_bool_inject (z : Z) : Qle_bool (inject_Z z) 0 = (z <=? 0)%Z.
Proof. unfold Qle_bool, inject_Z. simpl. by rewrite Z.mul_1_r. Qed.

Lemma Qeq_bool_inject (z : Z) : Qeq_bool (inject_Z z) 0 = (z =? 0)%Z.
Proof. unfold Qeq_bool, inject_Z. simpl. by rewrite Z.mul_1_r. Qed.

(** The values of one column are all numbers or all strings. *)
Lemma column_kind (k : ColumnKey) (a b : InstagramMetrics) (x : Q)
    (s : jsstring) :
  extractSortValue a k = Some (VNumber x) →
  extractSortValue b k = Some (VString s) → False.
Proof.
  destruct k; simpl; try done;
    repeat match goal with
           | |- context [?f <$> ?o] => destruct o; simpl
           end; done.
Qed.

Section SortTheory.

Variable Number_toString : Q -> jsstring.
Variable localeCompare : jsstring -> jsstring -> Z.

Local Abbreviation compare := (compareRows Number_toString localeCompare).
Local Abbreviation sorted k order records :=
  (sortedRows Number_toString localeCompare (mkState records k order)).

(** Sorting in descending direction is sorting by the flipped ascending
    comparator. *)
Lemma compareRows_flip (k : ColumnKey) (a b : InstagramMetrics) :
  compare k desc a b = compare k asc b a.
Proof.
  unfold compareRows.
  destruct (extractSortValue a k) as [[x|s]|],
    (extractSortValue b k) as [[y|t]|]; reflexivity.
Qed.




(** From here on [localeCompare] is taken to be a consistent comparator,
    as a collation is: swapping the arguments flips the sign, and the order
    is transitive. *)
Hypothesis localeCompare_antisym :
  ∀ s t, Z.sgn (localeCompare t s) = (- Z.sgn (localeCompare s t))%Z.
Hypothesis localeCompare_trans :
  ∀ s t u, (localeCompare s t <= 0)%Z → (localeCompare t u <= 0)%Z →
           (localeCompare s u <= 0)%Z.

Ltac by_values a b k :=
  unfold precedes, compareRows;
  destruct (extractSortValue a k) as [[?|?]|] eqn:?,
    (extractSortValue b k) as [[?|?]|] eqn:?.

Ltac to_order :=
  repeat match goal with
         | H : Qle_bool (inject_Z _) 0 = _ |- _ => rewrite Qle_bool_inject in H
         | H : Qeq_bool (inject_Z _) 0 = _ |- _ => rewrite Qeq_bool_inject in H
         | H : Qle_bool _ _ = true |- _ => apply Qle_bool_iff in H
         | H : Qle_bool _ _ = false |- _ =>
             apply not_true_iff_false in H; rewrite Qle_bool_iff in H
         | H : Qeq_bool _ _ = true |- _ => apply Qeq_bool_iff in H
         | H : (_ <=? _)%Z = true |- _ => apply Z.leb_le in H
         | H : (_ <=? _)%Z = false |- _ => apply Z.leb_gt in H
         | H : (_ =? _)%Z = true |- _ => apply Z.eqb_eq in H
         | |- Qle_bool (inject_Z _) 0 = _ => rewrite Qle_bool_inject
         | |- Qeq_bool (inject_Z _) 0 = _ => rewrite Qeq_bool_inject
         | |- Qle_bool _ _ = true => apply Qle_bool_iff
         | |- Qeq_bool _ _ = true => apply Qeq_bool_iff
         | |- (_ <=? _)%Z = true => apply Z.leb_le
         | |- (_ =? _)%Z = true => apply Z.eqb_eq
         end.

Lemma precedes_total (k : ColumnKey) (a b : InstagramMetrics) :
  Qle_bool (compare k asc a b) 0 = false → precedes (compare k asc) b a.
Proof.
  by_values a b k; intros H; try (by vm_compute in H); try done;
    to_order; try lra.
  all: match goal with
       | |- (localeCompare ?t ?s <= 0)%Z =>
           pose proof (localeCompare_antisym s t); lia
       end.
Qed.

Lemma precedes_trans (k : ColumnKey) : Transitive (precedes (compare k asc)).
Proof.
  intros a b c. unfold precedes, compareRows.
  destruct (extractSortValue a k) as [[x|s]|] eqn:Ha,
    (extractSortValue b k) as [[y|t]|] eqn:Hb,
    (extractSortValue c k) as [[z|u]|] eqn:Hc;
    intros H1 H2; try (by vm_compute in H1); try (by vm_compute in H2);
    try done;
    try (exfalso; by eauto using column_kind).
  - to_order. lra.
  - to_order. by eapply localeCompare_trans.
Qed.

Lemma tie_antisym (k : ColumnKey) (a b : InstagramMetrics) :
  precedes (compare k asc) a b → precedes (compare k asc) b a →
  Qeq_bool (compare k asc a b) 0 = true.
Proof.
  by_values a b k; intros H1 H2; try (by vm_compute in H1);
    try (by vm_compute in H2); try done; to_order; try lra.
  all: match goal with
       | |- localeCompare ?s ?t = 0%Z =>
           pose proof (localeCompare_antisym s t); lia
       end.
Qed.

Lemma tie_sym (k : ColumnKey) (a b : InstagramMetrics) :
  Qeq_bool (compare k asc a b) 0 = true →
  Qeq_bool (compare k asc b a) 0 = true.
Proof.
  by_values a b k; intros H; try (by vm_compute in H); try done;
    to_order; try lra.
  all: match goal with
       | |- localeCompare ?t ?s = 0%Z =>
           pose proof (localeCompare_antisym s t); lia
       end.
Qed.

Lemma distinct_keys_eq (k : ColumnKey) (records : list InstagramMetrics)
    (a b : InstagramMetrics) :
  distinct_keys Number_toString localeCompare k records = true →
  a ∈ records → b ∈ records →
  Qeq_bool (compare k asc a b) 0 = true → a = b.
Proof.
  induction records as [|r records IH]; simpl; intros Hd Ha Hb Hab.
  - by apply elem_of_nil in Ha.
  - apply andb_true_iff in Hd as [Hr Hd]. rewrite forallb_forall in Hr.
    apply elem_of_cons in Ha as [->|Ha], Hb as [->|Hb].
    + done.
    + apply list_elem_of_In, Hr in Hb. by rewrite Hab in Hb.
    + apply tie_sym in Hab. apply list_elem_of_In, Hr in Ha.
      by rewrite Hab in Ha.
    + by apply IH.
Qed.

Lemma sorted_asc (k : ColumnKey) (records : list InstagramMetrics) :
  StronglySorted (precedes (compare k asc)) (sorted k asc records).
Proof.
  unfold sortedRows. simpl.
  apply Array_sort_StronglySorted; [apply precedes_trans|done|].
  apply precedes_total.
Qed.

Lemma sorted_desc (k : ColumnKey) (records : list InstagramMetrics) :
  StronglySorted (flip (precedes (compare k asc))) (sorted k desc records).
Proof.
  unfold sortedRows. simpl. apply Array_sort_StronglySorted.
  - intros a b c Hab Hbc. unfold flip in *. by eapply precedes_trans.
  - intros a b. by rewrite compareRows_flip.
  - intros a b. rewrite compareRows_flip. apply precedes_total.
Qed.

(** C9 (directional symmetry), amended.  When no two records compare as
    equal under the column, the rows sorted in ascending direction and then
    reversed are the rows sorted in descending direction. *)
Theorem sort_directional_symmetry (k : ColumnKey)
    (records : list InstagramMetrics) :
  distinct_keys Number_toString localeCompare k records = true →
  reverse (sorted k asc records) = sorted k desc records.
Proof.
  intros Hd.
  pose proof (precedes_trans k) as Htrans.
  assert (Transitive (flip (precedes (compare k asc)))) as Hflip.
  { intros a b c Hab Hbc. unfold flip in *. by transitivity b. }
  apply (Sorted_unique_strong (flip (precedes (compare k asc)))).
  - intros a b Ha Hb Hab Hba. unfold flip in *.
    rewrite elem_of_reverse in Ha.
    unfold sortedRows in Ha, Hb. simpl in Ha, Hb.
    rewrite Array_sort_Permutation in Ha, Hb.
    apply (distinct_keys_eq k records); [done..|].
    by apply tie_antisym.
  - apply Sorted_reverse, StronglySorted_Sorted, sorted_asc.
  - apply StronglySorted_Sorted, sorted_desc.
  - unfold sortedRows. simpl.
    by rewrite reverse_Permutation, !Array_sort_Permutation.
Qed.

End SortTheory.

(** ** The sample comparator is consistent *)

Lemma codeUnitCompare_antisym (s t : jsstring) :
  Z.sgn (codeUnitCompare t s) = (- Z.sgn (codeUnitCompare s t))%Z.
Proof.
  revert t. induction s as [|x s IH]; intros [|y t]; simpl; try done.
  rewrite (N.compare_antisym x y).
  destruct (N.compare x y); simpl; [apply IH|done|done].
Qed.

Lemma codeUnitCompare_trans (s t u : jsstring) :
  (codeUnitCompare s t <= 0)%Z → (codeUnitCompare t u <= 0)%Z →
  (codeUnitCompare s u <= 0)%Z.
Proof.
  revert t u. induction s as [|x s IH]; intros [|y t] [|z u]; simpl;
    try done; try lia.
  destruct (N.compare_spec x y) as [->|Hxy|Hxy]; [| |lia].
  - destruct (N.compare_spec y z); [apply IH|lia|lia].
  - destruct (N.compare_spec y z) as [->|Hyz|Hyz]; [| |lia]; intros _ _.
    + apply N.compare_lt_iff in Hxy. by rewrite Hxy.
    + assert (x < z) as Hxz%N.compare_lt_iff by lia. by rewrite Hxz.
Qed.

(** *** Examples of the exports and of the sort *)

(** C3, as stated, fails: one million followers are exported as the
    grouped numeral, which the CSV text then holds in double quotes. *)
Lemma csv_numeric_formatting_counterexample :
  formatCellForExport sample_toString nasa
    (mkColumn key_followers (js "Followers") true) = js "1,000,000"
  ∧ js "1,000,000" ≠ js "1000000"
  ∧ formatCellForExport sample_toString nasa
      (mkColumn key_engagementRate (js "Eng. Rate") true) = js "3.46"
  ∧ exportCsv sample_toString (mkState [nasa] key_followers desc) =
      Some
        (js "Name,Handle,Followers,Avg. Views,Eng. Rate,Category,Location,Avg. Likes"
         ++ [newline] ++ js "NASA,@nasa," ++ [quote] ++ js "1,000,000"
         ++ [quote] ++ js ",,3.46,," ++ [quote] ++ js "Washington, DC"
         ++ [quote] ++ js ",999").
Proof. split_and!; by vm_compute. Qed.

(** C7, as stated, fails: the spreadsheet row of a record with one million
    followers and an engagement rate of 3.456 holds these two numbers, not
    strings in compact or two-decimal notation. *)
Lemma spreadsheet_row_formatting_counterexample :
  property (formatSummary nasa) (js "Followers") =
    Some (CellNumber (inject_Z 1000000))
  ∧ property (formatSummary nasa) (js "Engagement Rate (%)") =
      Some (CellNumber (3456 # 1000))
  ∧ (∀ s, property (formatSummary nasa) (js "Followers")
          ≠ Some (CellString s))
  ∧ (∀ s, property (formatSummary nasa) (js "Engagement Rate (%)")
          ≠ Some (CellString s))
  ∧ exportExcel (mkState [nasa] key_followers desc) =
      Some [formatSummary nasa].
Proof. split_and!; try intros s; by vm_compute. Qed.

Lemma csv_export_sort_independent_witness :
  rows (mkState [nasa; cern] key_followers desc) =
    rows (mkState [nasa; cern] key_displayName asc)
  ∧ exportCsv sample_toString (mkState [nasa; cern] key_followers desc) =
      exportCsv sample_toString (mkState [nasa; cern] key_displayName asc).
Proof.
  split; [reflexivity|].
  apply (csv_export_sort_independent sample_toString). reflexivity.
Defined.

(** C9, as stated, fails: two records with the same number of followers,
    neither absent, keep their order in both directions, so that the
    reversed ascending rows differ from the descending rows. *)
Lemma sort_directional_symmetry_counterexample :
  extractSortValue esa key_followers = Some (VNumber (inject_Z 1000000))
  ∧ extractSortValue nasa key_followers = Some (VNumber (inject_Z 1000000))
  ∧ reverse (sortedRows sample_toString codeUnitCompare
               (mkState [esa; nasa] key_followers asc)) = [nasa; esa]
  ∧ sortedRows sample_toString codeUnitCompare
      (mkState [esa; nasa] key_followers desc) = [esa; nasa]
  ∧ reverse (sortedRows sample_toString codeUnitCompare
               (mkState [esa; nasa] key_followers asc))
    ≠ sortedRows sample_toString codeUnitCompare
        (mkState [esa; nasa] key_followers desc).
Proof. split_and!; by vm_compute. Qed.

Lemma sort_directional_symmetry_witness :
  distinct_keys sample_toString codeUnitCompare key_displayName
    [nasa; cern; esa] = true
  ∧ reverse (sortedRows sample_toString codeUnitCompare
               (mkState [nasa; cern; esa] key_displayName asc)) =
    sortedRows sample_toString codeUnitCompare
      (mkState [nasa; cern; esa] key_displayName desc).
Proof.
  split; [by vm_compute|].
  apply (sort_directional_symmetry sample_toString codeUnitCompare
           codeUnitCompare_antisym codeUnitCompare_trans).
  by vm_compute.
Defined.

Lemma csv_numeric_formatting_witness :
  count_of nasa key_followers = Some 1000000
  ∧ 1000000 < 2 ^ 53
  ∧ 1000 <= 1000000
  ∧ csvField
      (formatCellForExport sample_toString nasa
         (mkColumn key_followers (js "Followers") true)) =
      [quote] ++ js "1,000,000" ++ [quote]
  ∧ engagementRate nasa = Some (3456 # 1000)%Q
  ∧ (Qabs (3456 # 1000) < inject_Z (10 ^ 21))%Q
  ∧ ∃ a b,
      formatCellForExport sample_toString nasa
        (mkColumn key_engagementRate (js "Eng. Rate") true) =
        a ++ js "." ++ b
      ∧ length b = 2%nat.
Proof.
  destruct (csv_numeric_formatting sample_toString nasa
              (mkColumn key_followers (js "Followers") true))
    as [Hcount _].
  destruct (csv_numeric_formatting sample_toString nasa
              (mkColumn key_engagementRate (js "Eng. Rate") true))
    as [_ Hrate].
  assert (count_of nasa key_followers = Some 1000000) as H1 by reflexivity.
  assert (1000000 < 2 ^ 53) as H2 by (by vm_compute).
  assert (1000 <= 1000000) as H3 by (by vm_compute).
  assert (Qabs (3456 # 1000) < inject_Z (10 ^ 21))%Q as H4 by (by vm_compute).
  destruct (Hcount _ H1 H2) as (_ & _ & _ & _ & Hbig).
  destruct (Hbig H3) as [_ Hcsv].
  destruct (Hrate _ eq_refl eq_refl H4) as (a & b & Hfmt & _ & Hb & _).
  split_and!; try done.
  exists a, b. split; [exact Hfmt|exact Hb].
Defined.



(** ** The normalizer *)

Lemma separator_whitespace (c : N) :
  isSeparator c = false → isWhiteSpace c = false.
Proof. unfold isSeparator. by intros [? _]%orb_false_iff. Qed.

Lemma split_go_pieces (in_run : bool) (piece s : jsstring) :
  Forall (fun c => isSeparator c = false) piece →
  Forall (Forall (fun c => isSeparator c = false)) (split_go in_run piece s).
Proof.
  revert in_run piece. induction s as [|c s IH]; intros in_run piece Hp; simpl.
  - by constructor.
  - destruct (isSeparator c) eqn:Hc.
    + destruct in_run; [by apply IH|]. constructor; [done|]. by apply IH.
    + apply IH, Forall_app. split; [done|]. by constructor.
Qed.

Lemma parsedHandles_filter (input : jsstring) :
  parsedHandles input =
  filter (fun h => (0 <? length h)%nat) (split_separators input).
Proof.
  unfold parsedHandles. f_equal.
  pose proof (split_go_pieces false [] input (Forall_nil_2 _)) as Hp.
  fold (split_separators input) in Hp.
  induction Hp as [|h l Hh _ IH]; simpl; [done|].
  rewrite IH. f_equal. apply trim_no_whitespace.
  eapply Forall_impl; [exact Hh|]. apply separator_whitespace.
Qed.

Lemma parsedHandles_pieces (input h : jsstring) :
  h ∈ parsedHandles input →
  h ≠ [] ∧ Forall (fun c => isSeparator c = false) h.
Proof.
  rewrite parsedHandles_filter, list_elem_of_filter. intros [Hlen Hh]. split.
  - intros ->. done.
  - pose proof (split_go_pieces false [] input (Forall_nil_2 _)) as Hp.
    rewrite Forall_forall in Hp. by apply Hp.
Qed.

(** X1.  Every parsed handle is non-empty and holds neither white space
    nor a comma. *)
Theorem parsedHandles_clean (input h : jsstring) :
  h ∈ parsedHandles input →
  h ≠ [] ∧ Forall (fun c => isSeparator c = false) h.
Proof. apply parsedHandles_pieces. Qed.

Lemma split_go_chars (in_run : bool) (piece s h : jsstring) (c : N) :
  h ∈ split_go in_run piece s → c ∈ h →
  c ∈ piece ∨ (c ∈ s ∧ isSeparator c = false).
Proof.
  revert in_run piece. induction s as [|x s IH]; intros in_run piece; simpl.
  - intros ->%list_elem_of_singleton Hc. by left.
  - destruct (isSeparator x) eqn:Hx.
    + destruct in_run.
      * intros Hh Hc. destruct (IH _ _ Hh Hc) as [Hp|[Hs Hsep]]; [by left|].
        right. split; [by right|done].
      * intros [->|Hh]%elem_of_cons Hc; [by left|].
        destruct (IH _ _ Hh Hc) as [Hp|[Hs Hsep]].
        -- by apply elem_of_nil in Hp.
        -- right. split; [by right|done].
    + intros Hh Hc. destruct (IH _ _ Hh Hc) as [Hp|[Hs Hsep]].
      * apply elem_of_app in Hp as [Hp| ->%list_elem_of_singleton];
          [by left|].
        right. split; [by left|done].
      * right. split; [by right|done].
Qed.

Lemma split_go_covers (in_run : bool) (piece s : jsstring) (c : N) :
  c ∈ piece ∨ (c ∈ s ∧ isSeparator c = false) →
  ∃ h, h ∈ split_go in_run piece s ∧ c ∈ h.
Proof.
  revert in_run piece. induction s as [|x s IH]; intros in_run piece; simpl.
  - intros [Hc|[Hc _]]; [|by apply elem_of_nil in Hc].
    exists piece. split; [by left|done].
  - intros Hc.
    assert (c ∈ piece ∨ c = x ∧ isSeparator c = false
            ∨ c ∈ s ∧ isSeparator c = false) as Hc'.
    { destruct Hc as [Hp|[Hs Hsep]]; [by left|].
      apply elem_of_cons in Hs as [->|Hs]; right; [by left|by right]. }
    clear Hc. destruct (isSeparator x) eqn:Hx.
    + destruct in_run.
      * apply IH. destruct Hc' as [Hp|[[-> Hsep]|Hs]];
          [by left|congruence|by right].
      * destruct Hc' as [Hp|[[-> Hsep]|Hs]].
        -- exists piece. split; [by left|done].
        -- congruence.
        -- destruct (IH true [] (or_intror Hs)) as (h & Hh & Hch).
           exists h. split; [by right|done].
    + apply IH. destruct Hc' as [Hp|[[-> Hsep]|Hs]].
      * left. apply elem_of_app. by left.
      * left. apply elem_of_app. right. by left.
      * by right.
Qed.

(** X2.  No handle is parsed exactly when the text holds nothing but white
    space and commas (the case in which the form does nothing). *)
Theorem parsedHandles_empty (input : jsstring) :
  parsedHandles input = [] ↔ Forall (fun c => isSeparator c = true) input.
Proof.
  rewrite parsedHandles_filter. split.
  - intros Hnil. apply Forall_forall. intros c Hc.
    destruct (isSeparator c) eqn:Hsep; [done|].
    destruct (split_go_covers false [] input c (or_intror (conj Hc Hsep)))
      as (h & Hh & Hch).
    assert (h ∈ filter (fun h => (0 <? length h)%nat)
                  (split_separators input)) as Hin.
    { apply list_elem_of_filter. split; [|done].
      destruct h; [by apply elem_of_nil in Hch|done]. }
    rewrite Hnil in Hin. by apply elem_of_nil in Hin.
  - intros Hall.
    destruct (filter _ (split_separators input)) as [|h l] eqn:Hf; [done|].
    assert (h ∈ filter (fun h => (0 <? length h)%nat)
                  (split_separators input)) as Hin by (rewrite Hf; by left).
    apply list_elem_of_filter in Hin as [Hlen Hh].
    destruct h as [|c h]; [done|].
    destruct (split_go_chars false [] input (c :: h) c Hh) as [Hp|[Hc Hsep]];
      [by left|by apply elem_of_nil in Hp|].
    rewrite Forall_forall in Hall. apply Hall in Hc. congruence.
Qed.

Lemma split_go_token (piece t rest : jsstring) :
  Forall (fun c => isSeparator c = false) t →
  split_go false piece (t ++ rest) = split_go false (piece ++ t) rest.
Proof.
  intros Ht. revert piece. induction Ht as [|c t Hc _ IH]; intros piece; simpl.
  - by rewrite app_nil_r.
  - rewrite Hc, IH. by rewrite <-app_assoc.
Qed.

Lemma split_go_after_run (t rest : jsstring) :
  t ≠ [] → Forall (fun c => isSeparator c = false) t →
  split_go true [] (t ++ rest) = split_go false [] (t ++ rest).
Proof.
  intros Hne Ht. destruct Ht as [|c t Hc _]; [done|]. simpl. by rewrite Hc.
Qed.

Lemma split_go_sep (sep : N) (piece s : jsstring) :
  isSeparator sep = true →
  split_go false piece (sep :: s) = piece :: split_go true [] s.
Proof. intros Hsep. simpl. by rewrite Hsep. Qed.

Lemma join_cons_app (sep h : jsstring) (hs : list jsstring) :
  ∃ rest, join sep (h :: hs) = h ++ rest.
Proof.
  destruct hs as [|h2 hs]; simpl.
  - exists []. by rewrite app_nil_r.
  - eauto.
Qed.

Lemma split_join (sep : N) (hs : list jsstring) :
  isSeparator sep = true → hs ≠ [] →
  Forall (fun h => h ≠ [] ∧ Forall (fun c => isSeparator c = false) h) hs →
  split_separators (join [sep] hs) = hs.
Proof.
  intros Hsep Hne Hall. unfold split_separators.
  induction Hall as [|h hs [Hh Hclean] Hall IH]; [done|].
  destruct hs as [|h2 hs].
  - simpl. rewrite <-(app_nil_r h) at 1. by rewrite split_go_token.
  - change (join [sep] (h :: h2 :: hs))
      with (h ++ [sep] ++ join [sep] (h2 :: hs)).
    rewrite split_go_token by done.
    change ([sep] ++ ?x) with (sep :: x).
    rewrite split_go_sep by done. f_equal.
    destruct (join_cons_app [sep] h2 hs) as [rest Hrest].
    apply Forall_cons in Hall as [[Hh2 Hclean2] _].
    rewrite Hrest, split_go_after_run, <-Hrest by done. by apply IH.
Qed.

(** X3.  Handles that are non-empty and hold no separator, written one
    after the other with a separator between them (a space, a line feed, a
    comma), are parsed back as they are. *)
Theorem parsedHandles_join (sep : N) (hs : list jsstring) :
  isSeparator sep = true →
  Forall (fun h => h ≠ [] ∧ Forall (fun c => isSeparator c = false) h) hs →
  parsedHandles (join [sep] hs) = hs.
Proof.
  intros Hsep Hall. rewrite parsedHandles_filter.
  destruct hs as [|h hs]; [done|].
  rewrite split_join by done. apply filter_all.
  eapply Forall_impl; [exact Hall|]. intros t [Ht _]. by destruct t.
Qed.

(** ** More on the batch aggregator *)

Lemma Set_from_NoDup_id (l : list jsstring) : NoDup l → Set_from l = l.
Proof.
  induction l as [|x l IH] using rev_ind; [done|]. intros Hnd.
  apply NoDup_app in Hnd as (Hl & Hx & _).
  rewrite Set_from_snoc, IH by done. unfold Set_add.
  rewrite decide_False; [done|].
  intros Hin. apply (Hx x Hin). by left.
Qed.

Section AnalyzeMore.

Context {number : Type}.
Variable Number_toString : number -> jsstring.
Variable fetch : jsstring -> PromiseSettledResult.

Lemma tokens_strings (l : list jsstring) :
  Forall (fun t => t ≠ [] ∧ trim t = t) l →
  tokens Number_toString (map JString l) = Some l.
Proof.
  intros Hall. unfold tokens.
  assert (mapM (coerce Number_toString) (map JString l) = Some l) as ->.
  { apply mapM_Some_2. induction Hall as [|t l [_ Ht] _ IH]; simpl.
    - constructor.
    - constructor; [|exact IH]. unfold coerce. simpl. by rewrite Ht. }
  simpl. f_equal. apply filter_all.
  eapply Forall_impl; [exact Hall|]. intros t [Hne _]. by destruct t.
Qed.

(** The handles the component parsed are their own tokens. *)
Lemma tokens_parsedHandles (input : jsstring) :
  tokens Number_toString (map JString (parsedHandles input)) =
  Some (parsedHandles input).
Proof.
  apply tokens_strings, Forall_forall. intros h Hh.
  apply parsedHandles_pieces in Hh as [Hne Hclean]. split; [done|].
  apply trim_no_whitespace.
  eapply Forall_impl; [exact Hclean|]. apply separator_whitespace.
Qed.

Lemma tokens_normal (items : list (JSValue number)) (ts : list jsstring) :
  tokens Number_toString items = Some ts →
  Forall (fun t => t ≠ [] ∧ trim t = t) ts.
Proof.
  intros Hts. apply Forall_forall.
  intros t [Hne (v & Hv & Hc)]%(tokens_elem _ _ _ _ Hts).
  split; [done|]. unfold coerce in Hc.
  apply fmap_Some in Hc as (s & _ & ->). apply trim_idempotent.
Qed.


(** X5.  Every handle the resolver is called with is non-empty and has no
    white space at either end, and submitting the dispatched handles again
    dispatches the same handles in the same order. *)
Theorem dispatch_normal (items : list (JSValue number)) :
  let calls :=
    resolver_calls Number_toString fetch (mkRequest (Some (JArray items))) in
  (∀ h, h ∈ calls → h ≠ [] ∧ trim h = h)
  ∧ resolver_calls Number_toString fetch
      (mkRequest (Some (JArray (map JString calls)))) = calls.
Proof.
  intros calls. subst calls. rewrite !resolver_calls_array.
  assert (Forall (fun t => t ≠ [] ∧ trim t = t)
            (default [] (uniqueHandles Number_toString items))) as Hnormal.
  { unfold uniqueHandles.
    destruct (tokens Number_toString items) as [ts|] eqn:Hts; simpl;
      [|constructor].
    apply Forall_forall. intros t Ht. rewrite Set_from_elem in Ht.
    pose proof (tokens_normal items ts Hts) as Hall.
    rewrite Forall_forall in Hall. by apply Hall. }
  split.
  - by apply Forall_forall.
  - unfold uniqueHandles at 1. rewrite tokens_strings by done. simpl.
    apply Set_from_NoDup_id. unfold uniqueHandles.
    destruct (tokens Number_toString items); simpl;
      [apply Set_from_NoDup|constructor].
Qed.

(** X6.  When every [SocialbladeError] the resolver rejects with carries a
    message, every error entry of an answer has a non-empty message, and
    its handle is one of the handles dispatched. *)
Theorem error_entries (payload : AnalyzeRequest number) (r : Response)
    (response : AnalyzeResponse) :
  (∀ h reason, fetch h = rejected reason →
     isSocialbladeError reason = true → message reason ≠ []) →
  respond Number_toString fetch payload = Some r →
  body r = ResultBody response →
  ∀ e, e ∈ errors response →
    entry_message e ≠ []
    ∧ entry_handle e ∈ resolver_calls Number_toString fetch payload
    ∧ ∃ reason, fetch (entry_handle e) = rejected reason.
Proof.
  intros Hmsg Hr Hbody e He. unfold respond, resolver_calls in *.
  destruct (POST_cases Number_toString fetch payload)
    as [(Hno & m & HP & _)
       |[(items & -> & Hu & HP)|(items & unique & -> & Hu & Hne & HP)]];
    rewrite HP in *; cbn [fst snd] in *.
  - injection Hr as <-. done.
  - done.
  - injection Hr as <-. simpl in Hbody. injection Hbody as <-.
    cbn [errors] in He.
    apply list_elem_of_omap in He as (h & Hh & He).
    destruct (fetch h) as [value|reason] eqn:Hf; [done|].
    injection He as <-. simpl. split_and!; [|done|by eauto].
    unfold error_message. destruct (isSocialbladeError reason) eqn:Hk.
    + by eapply Hmsg.
    + destruct (message reason); by vm_compute.
Qed.

(** X7.  The handles the component submits reach the resolver as parsed:
    the handler calls it with the distinct parsed handles in the order of
    their first occurrences, and answers 200 as soon as one handle was
    parsed. *)
Theorem submitted_handles (d : Dashboard) :
  tokens Number_toString
    (map JString (parsedHandles (handlesInput d))) =
    Some (parsedHandles (handlesInput d))
  ∧ resolver_calls Number_toString fetch (analyzeRequest d) =
      Set_from (parsedHandles (handlesInput d))
  ∧ (parsedHandles (handlesInput d) ≠ [] →
     ∃ r, respond Number_toString fetch (analyzeRequest d) = Some r
          ∧ status r = 200%nat).
Proof.
  pose proof (tokens_parsedHandles (handlesInput d)) as Htok.
  unfold analyzeRequest. rewrite resolver_calls_array.
  unfold uniqueHandles. rewrite Htok. split_and!; [done..|].
  intros Hne. unfold respond. erewrite POST_accepts; [by eexists| |].
  - unfold uniqueHandles. by rewrite Htok.
  - destruct (parsedHandles (handlesInput d)) as [|h l] eqn:Hp; [done|].
    intros Hnil. assert (h ∈ Set_from (h :: l)) as Hin.
    { apply Set_from_elem. by left. }
    rewrite Hnil in Hin. by apply elem_of_nil in Hin.
Qed.

End AnalyzeMore.

(** ** More on the sort *)

Lemma insert_fixed {A} (cmp : A -> A -> Q) (x : A) (l : list A) :
  Forall (precedes cmp x) l → insert cmp x l = x :: l.
Proof. destruct 1 as [|y l Hy _]; simpl; [done|]. by rewrite Hy. Qed.

(** Sorting rows that are in order leaves them as they are. *)
Lemma Array_sort_fixed {A} (cmp : A -> A -> Q) (l : list A) :
  StronglySorted (precedes cmp) l → Array_sort cmp l = l.
Proof.
  induction 1 as [|x l Hl IH Hx]; simpl; [done|].
  rewrite IH. by apply insert_fixed.
Qed.

Section SortMore.

Variable Number_toString : Q -> jsstring.
Variable localeCompare : jsstring -> jsstring -> Z.

Local Abbreviation compare' := (compareRows Number_toString localeCompare).
Local Abbreviation sorted' k order records :=
  (sortedRows Number_toString localeCompare (mkState records k order)).

(** X8.  The sorted rows are the rows of the state in another order: no
    row is lost, added or repeated, whatever the column and the
    direction. *)
Theorem sortedRows_Permutation (st : DashboardState) :
  sortedRows Number_toString localeCompare st ≡ₚ rows st
  ∧ length (sortedRows Number_toString localeCompare st) = length (rows st).
Proof.
  assert (sortedRows Number_toString localeCompare st ≡ₚ rows st) as Hp.
  { unfold sortedRows. simpl. apply Array_sort_Permutation. }
  split; [done|]. by rewrite Hp.
Qed.

Hypothesis localeCompare_antisym :
  ∀ s t, Z.sgn (localeCompare t s) = (- Z.sgn (localeCompare s t))%Z.
Hypothesis localeCompare_trans :
  ∀ s t u, (localeCompare s t <= 0)%Z → (localeCompare t u <= 0)%Z →
           (localeCompare s u <= 0)%Z.

Lemma sorted_in_order (k : ColumnKey) (order : SortOrder)
    (records : list InstagramMetrics) :
  StronglySorted (precedes (compare' k order)) (sorted' k order records).
Proof.
  destruct order.
  - by apply sorted_asc.
  - unfold sortedRows. simpl. apply Array_sort_StronglySorted.
    + intros a b c. unfold precedes. rewrite !compareRows_flip.
      intros Hab Hbc.
      by apply (precedes_trans Number_toString localeCompare
                  localeCompare_trans k c b a).
    + done.
    + intros a b. unfold precedes. rewrite !compareRows_flip.
      by apply precedes_total.
Qed.

(** X9.  With a consistent [localeCompare], the sorted rows are in order:
    the comparator never puts a row after one that stands behind it. *)
Theorem sortedRows_ordered (k : ColumnKey) (order : SortOrder)
    (records : list InstagramMetrics) (i j : nat) (a b : InstagramMetrics) :
  sorted' k order records !! i = Some a →
  sorted' k order records !! j = Some b →
  (i < j)%nat →
  (compare' k order a b <= 0)%Q.
Proof.
  intros Hi Hj Hij. apply Qle_bool_iff.
  exact (StronglySorted_lookup _ _ _ _ _ _
           (sorted_in_order k order records) Hi Hj Hij).
Qed.

(** X10.  With a consistent [localeCompare], sorting is idempotent: sorting
    the sorted rows again by the same column and direction changes
    nothing. *)
Theorem sortedRows_idempotent (k : ColumnKey) (order : SortOrder)
    (records : list InstagramMetrics) :
  sorted' k order (sorted' k order records) = sorted' k order records.
Proof.
  unfold sortedRows at 1. simpl.
  apply Array_sort_fixed, sorted_in_order.
Qed.

(** X11.  With a consistent [localeCompare], the sort is stable in both
    directions: the rows that tie with a given row stand in the sorted
    rows in the order they have in the state. *)
Theorem sortedRows_stable (k : ColumnKey) (order : SortOrder)
    (records : list InstagramMetrics) (r : InstagramMetrics) :
  filter (fun a => Qeq_bool (compare' k asc r a) 0 = true)
    (sorted' k order records) =
  filter (fun a => Qeq_bool (compare' k asc r a) 0 = true) records.
Proof.
  unfold sortedRows. simpl. apply Array_sort_stable.
  intros a b Ha Hb.
  pose proof (tie_sym Number_toString localeCompare localeCompare_antisym
                k _ _ Ha) as Ha'.
  pose proof (tie_sym Number_toString localeCompare localeCompare_antisym
                k _ _ Hb) as Hb'.
  assert (∀ x y, Qeq_bool (compare' k asc x y) 0 = true →
                 precedes (compare' k asc) x y) as Hle.
  { intros x y Hxy. unfold precedes. apply Qle_bool_iff.
    apply Qeq_bool_iff in Hxy. rewrite Hxy. apply Qle_refl. }
  destruct order.
  - apply (precedes_trans Number_toString localeCompare
             localeCompare_trans k a r b); by apply Hle.
  - rewrite compareRows_flip.
    apply (precedes_trans Number_toString localeCompare
             localeCompare_trans k b r a); by apply Hle.
Qed.

(** X12.  With a consistent [localeCompare], a click on the header of the
    active column, under which no two rows tie, turns the displayed rows
    around; the rows of the state and the active column stay. *)
Theorem handleSort_reverses (column : ColumnDefinition)
    (st : DashboardState) :
  sortKey st = key column →
  distinct_keys Number_toString localeCompare (sortKey st) (rows st) = true →
  sortedRows Number_toString localeCompare (handleSort column st) =
    reverse (sortedRows Number_toString localeCompare st)
  ∧ rows (handleSort column st) = rows st
  ∧ sortKey (handleSort column st) = sortKey st
  ∧ handleSort column (handleSort column st) = st.
Proof.
  intros Hkey Hd. unfold handleSort. rewrite decide_True by done. simpl.
  rewrite decide_True by done. destruct st as [records k order].
  simpl in *. split_and!; try done; [|by destruct order].
  assert (reverse (sorted' k asc records) = sorted' k desc records) as Hrev.
  { pose proof (precedes_trans Number_toString localeCompare
                  localeCompare_trans k) as Htrans.
    assert (Transitive (flip (precedes (compare' k asc)))) as Hflip.
    { intros a b c Hab Hbc. unfold flip in *. by transitivity b. }
    apply (Sorted_unique_strong (flip (precedes (compare' k asc)))).
    - intros a b Ha Hb Hab Hba. unfold flip in *.
      rewrite elem_of_reverse in Ha.
      unfold sortedRows in Ha, Hb. simpl in Ha, Hb.
      rewrite Array_sort_Permutation in Ha, Hb.
      apply (distinct_keys_eq Number_toString localeCompare
               localeCompare_antisym k records); [done..|].
      by apply tie_antisym.
    - apply Sorted_reverse, StronglySorted_Sorted. by apply sorted_asc.
    - apply StronglySorted_Sorted. by apply sorted_desc.
    - unfold sortedRows. simpl.
      by rewrite reverse_Permutation, !Array_sort_Permutation. }
  destruct order; simpl.
  - by rewrite Hrev.
  - by rewrite <-Hrev, reverse_involutive.
Qed.

End SortMore.

(** ** The analyze action *)

Section AnalyzeAction.

Context {number : Type}.
Variable Number_toString : number -> jsstring.
Variable fetch : jsstring -> PromiseSettledResult.


(** X14.  Analyzing a text in which a handle was parsed never ends in a
    request-level rejection by the handler: the handler answers, the rows
    are the records of the distinct parsed handles the resolver fulfilled,
    the errors are those of the handles it rejected, and together they are
    as many as the distinct parsed handles. *)
Theorem handleAnalyze_parsed (now : N) (d : Dashboard) :
  parsedHandles (handlesInput d) ≠ [] →
  ∃ r d',
    respond Number_toString fetch (analyzeRequest d) = Some r
    ∧ handleAnalyze (responded r) now d = Some d'
    ∧ rows (view d') =
        omap (success_of ∘ fetch) (Set_from (parsedHandles (handlesInput d)))
    ∧ shownErrors d' =
        omap (fun h => failure_of h (fetch h))
          (Set_from (parsedHandles (handlesInput d)))
    ∧ (length (rows (view d')) + length (shownErrors d'))%nat =
        size (list_to_set (parsedHandles (handlesInput d)) : gset jsstring)
    ∧ lastUpdatedAt d' = Some now.
Proof.
  intros Hne.
  pose proof (tokens_parsedHandles Number_toString (handlesInput d)) as Htok.
  assert (uniqueHandles Number_toString
            (map JString (parsedHandles (handlesInput d))) =
          Some (Set_from (parsedHandles (handlesInput d)))) as Hu.
  { unfold uniqueHandles. by rewrite Htok. }
  assert (Set_from (parsedHandles (handlesInput d)) ≠ []) as Hne'.
  { destruct (parsedHandles (handlesInput d)) as [|h l] eqn:Hp; [done|].
    intros Hnil. assert (h ∈ Set_from (h :: l)) as Hin.
    { apply Set_from_elem. by left. }
    rewrite Hnil in Hin. by apply elem_of_nil in Hin. }
  unfold analyzeRequest, respond.
  rewrite (POST_accepts Number_toString fetch _ _ Hu Hne').
  cbn [fst]. eexists. eexists. split; [reflexivity|].
  split; [reflexivity|]. simpl.
  split_and!; try done.
  rewrite partition_length. apply Set_from_length.
Qed.

End AnalyzeAction.

(** ** Reading the exported text back *)

Lemma csvRead_quoted (v fld : jsstring) (record : list jsstring)
    (tail : jsstring) :
  csvRead InQuoted fld record (doubleQuotes v ++ quote :: tail) =
  csvRead AfterQuote (fld ++ v) record tail.
Proof.
  revert fld. induction v as [|c v IH]; intros fld.
  - simpl. by rewrite app_nil_r.
  - unfold doubleQuotes in *. simpl flat_map.
    destruct (N.eqb_spec c quote) as [->|Hc].
    + simpl. rewrite IH. by rewrite <-app_assoc.
    + simpl. rewrite (proj2 (N.eqb_neq c quote)) by done.
      rewrite IH. by rewrite <-app_assoc.
Qed.

Lemma csvRead_AfterQuote (fld : jsstring) (record : list jsstring)
    (tail : jsstring) :
  fieldEnd tail →
  csvRead AfterQuote fld record tail = csvAfter fld record tail.
Proof. destruct tail as [|c s']; simpl; [done|]. by intros [->| ->]. Qed.

(** A text without a bare carriage return is free of carriage returns
    where it is written without quotes. *)
Lemma bareCarriageReturn_plain (v : jsstring) :
  bareCarriageReturn v = false → needsEscape v = false →
  Forall (fun c => (c =? carriageReturn) = false) v.
Proof.
  unfold bareCarriageReturn. intros Hbare Hplain.
  rewrite Hplain, andb_true_r in Hbare.
  apply Forall_forall. intros c Hc.
  destruct (c =? carriageReturn) eqn:Hcr; [|done].
  assert (existsb (fun c => c =? carriageReturn) v = true) as Hex.
  { apply existsb_exists. exists c. split; [by apply list_elem_of_In|done]. }
  congruence.
Qed.

Lemma csvRead_InPlain (v fld : jsstring) (record : list jsstring)
    (tail : jsstring) :
  needsEscape v = false →
  Forall (fun c => (c =? carriageReturn) = false) v →
  fieldEnd tail →
  csvRead InPlain fld record (v ++ tail) = csvAfter (fld ++ v) record tail.
Proof.
  intros Hv Hcr Htail. revert fld.
  induction Hcr as [|c v Hc Hcr IH]; intros fld.
  - rewrite app_nil_r. destruct tail as [|c s']; simpl; [done|].
    by destruct Htail as [->| ->].
  - unfold needsEscape in Hv. simpl in Hv.
    apply orb_false_iff in Hv as [Hc' Hv].
    apply orb_false_iff in Hc' as [Hc' Hnl].
    apply orb_false_iff in Hc' as [Hq Hcomma].
    simpl. rewrite Hcomma, Hnl, Hc, (IH Hv). by rewrite <-app_assoc.
Qed.

Lemma csvRead_field (v : jsstring) (record : list jsstring)
    (tail : jsstring) :
  bareCarriageReturn v = false →
  fieldEnd tail →
  csvRead AtStart [] record (csvField v ++ tail) = csvAfter v record tail.
Proof.
  intros Hbare Htail. unfold csvField. destruct (needsEscape v) eqn:Hv.
  - change (([quote] ++ doubleQuotes v ++ [quote]) ++ tail)
      with (quote :: ((doubleQuotes v ++ [quote]) ++ tail)).
    rewrite <-app_assoc. simpl.
    rewrite csvRead_quoted. by apply csvRead_AfterQuote.
  - pose proof (bareCarriageReturn_plain v Hbare Hv) as Hcr.
    destruct v as [|c v].
    + destruct tail as [|c s']; simpl; [done|].
      by destruct Htail as [->| ->].
    + pose proof Hv as Hv'. unfold needsEscape in Hv'. simpl in Hv'.
      apply orb_false_iff in Hv' as [Hc Hrest].
      apply orb_false_iff in Hc as [Hc Hnl].
      apply orb_false_iff in Hc as [Hq Hcomma].
      apply Forall_cons in Hcr as [Hc0 Hcr].
      simpl. rewrite Hq, Hcomma, Hnl, Hc0.
      by apply (csvRead_InPlain v [c]).
Qed.

Lemma csvRead_record (fields record : list jsstring) (tail : jsstring) :
  fields ≠ [] →
  Forall (fun v => bareCarriageReturn v = false) fields →
  match tail with [] => True | c :: _ => c = newline end →
  csvRead AtStart [] record (join [comma] (map csvField fields) ++ tail) =
  match tail with
  | [] => [record ++ fields]
  | _ :: s' => (record ++ fields) :: csvRead AtStart [] [] s'
  end.
Proof.
  intros Hne Hbare Htail. revert record.
  induction Hbare as [|f fields Hf Hbare IH]; intros record; [done|].
  destruct fields as [|f2 fields].
  - simpl join. rewrite csvRead_field.
    + destruct tail as [|c s']; simpl; [done|]. by subst c.
    + done.
    + destruct tail; simpl; [done|]. by right.
  - change (join [comma] (map csvField (f :: f2 :: fields)))
      with (csvField f ++ comma :: join [comma] (map csvField (f2 :: fields))).
    rewrite <-app_assoc. rewrite csvRead_field by (done || by left).
    change (csvAfter f record ((comma :: ?x) ++ tail))
      with (csvRead AtStart [] (record ++ [f]) (x ++ tail)).
    rewrite IH by done. rewrite <-!app_assoc. done.
Qed.

Lemma csvRead_document (records : list (list jsstring)) :
  records ≠ [] →
  Forall (fun fields =>
            fields ≠ []
            ∧ Forall (fun v => bareCarriageReturn v = false) fields)
    records →
  csvParse
    (join [newline]
       (map (fun fields => join [comma] (map csvField fields)) records)) =
  records.
Proof.
  intros Hne Hall. unfold csvParse.
  induction Hall as [|fields records [Hf Hbare] Hall IH]; [done|].
  destruct records as [|fields2 records].
  - simpl join. rewrite <-(app_nil_r (join _ _)).
    by rewrite csvRead_record.
  - change (join [newline] (map ?g (fields :: fields2 :: records)))
      with (g fields ++ newline :: join [newline] (map g (fields2 :: records))).
    cbv beta. rewrite csvRead_record by done. simpl app.
    f_equal. by apply IH.
Qed.

Section ExportMore.

Variable Number_toString : Q -> jsstring.

(** X15.  The exported text loses nothing as long as no cell holds a bare
    carriage return, that is one in a text without a comma, a quote or a
    line feed, which [exportCsv] writes without quotes.  Read as
    comma-separated text (quoted fields, doubled quotes, records ended by a
    line break), the text gives back the header labels and, for every row
    of the state in its order, the eight cell texts, whatever commas,
    quotes and line feeds these hold. *)
Theorem exportCsv_round_trip (st : DashboardState) (csv : jsstring) :
  exportCsv Number_toString st = Some csv →
  Forall (fun row =>
            Forall (fun column =>
                      bareCarriageReturn
                        (formatCellForExport Number_toString row column) =
                        false) columns) (rows st) →
  csvParse csv =
    map label columns
    :: map (fun row => map (formatCellForExport Number_toString row) columns)
         (rows st).
Proof.
  unfold exportCsv. destruct (length (rows st) =? 0)%nat; [done|].
  intros Heq Hbare. apply (inj Some) in Heq. rewrite <-Heq. clear Heq.
  set (cells := map (fun row =>
                       map (formatCellForExport Number_toString row) columns)
                  (rows st)).
  rewrite <-(csvRead_document (map label columns :: cells)).
  - f_equal. f_equal.
    change (map ?g (map label columns :: cells))
      with (g (map label columns) :: map g cells).
    cbv beta.
    replace (join [comma] (map csvField (map label columns)))
      with (join [comma] (map label columns)) by (by vm_compute).
    f_equal. subst cells.
    rewrite map_map. apply map_ext. intros row. by rewrite map_map.
  - done.
  - constructor.
    + split; [done|]. repeat (constructor; [by vm_compute|]). constructor.
    + apply Forall_forall.
      intros fields Hin. apply list_elem_of_In, in_map_iff in Hin
        as (row & <- & Hrow). split; [done|].
      rewrite Forall_forall in Hbare.
      apply list_elem_of_In, Hbare in Hrow.
      apply Forall_forall. intros v Hv.
      apply list_elem_of_In, in_map_iff in Hv as (column & <- & Hcol).
      rewrite Forall_forall in Hrow. by apply Hrow, list_elem_of_In.
Qed.

End ExportMore.

(** ** The screen and the rate *)

Lemma round_half_up_close (y : Q) :
  (0 <= y)%Q →
  (N2Q (round_half_up y) - (1 # 2) <= y)%Q
  ∧ (y < N2Q (round_half_up y) + (1 # 2))%Q.
Proof.
  intros Hy. unfold round_half_up, N2Q.
  assert (0 <= Qfloor (y + (1 # 2)))%Z as Hz.
  { change 0%Z with (Qfloor 0). apply Qfloor_resp_le. lra. }
  rewrite Z2N.id by done.
  pose proof (Qfloor_le (y + (1 # 2))) as Hle.
  pose proof (Qlt_floor (y + (1 # 2))) as Hlt.
  rewrite inject_Z_plus in Hlt. change (inject_Z 1) with 1%Q in Hlt.
  split; lra.
Qed.

Section ScreenTheory.

Variable Number_toString : Q -> jsstring.
Variable compactNumber_format : Q -> jsstring.

(** X16.  The two-decimal text of a rate below 10^21 in magnitude is the
    nearest hundredth: read as a whole number of hundredths, its digits
    differ from one hundred times the magnitude of the rate by at most one
    half. *)
Theorem toFixed2_accuracy (x : Q) :
  (Qabs x < inject_Z (10 ^ 21))%Q →
  ∃ a b,
    toFixed2 Number_toString x =
      (if Qneg x then js "-" else []) ++ a ++ js "." ++ b
    ∧ length b = 2%nat
    ∧ (Qabs (N2Q (numeral_value (a ++ b)) - Qabs x * inject_Z 100)
       <= 1 # 2)%Q.
Proof.
  intros Hx.
  destruct (toFixed2_shape Number_toString x Hx)
    as (a & b & Hfmt & _ & Hb & _ & Hval).
  exists a, b. split_and!; [done..|]. rewrite Hval.
  assert (0 <= Qabs x * inject_Z 100)%Q as Hpos.
  { apply Qmult_le_0_compat; [apply Qabs_nonneg|done]. }
  destruct (round_half_up_close _ Hpos) as [Hlo Hhi].
  apply Qabs_Qle_condition. split; lra.
Qed.

(** X17.  The screen and the CSV export show the same text for the name,
    the category and the location, and for the handle with its [@]; the
    rate is the exported text followed by a percent sign; a count is
    abbreviated on the screen and, when it is below 2^53, grouped in the
    export; an absent value is a dash on the screen and the empty text in
    the export. *)
Theorem formatCell_export (row : InstagramMetrics)
    (column : ColumnDefinition) :
  match field row (key column) with
  | None =>
      formatCell Number_toString compactNumber_format row column = dash
      ∧ formatCellForExport Number_toString row column = []
  | Some _ =>
      match count_of row (key column) with
      | Some n =>
          formatCell Number_toString compactNumber_format row column =
            compactNumber_format (N2Q n)
          ∧ (n < 2 ^ 53 →
             formatCellForExport Number_toString row column = grouped n)
      | None =>
          formatCell Number_toString compactNumber_format row column =
            formatCellForExport Number_toString row column
            ++ (if decide (key column = key_engagementRate)
                then js "%" else [])
      end
  end.
Proof.
  unfold formatCell, formatCellForExport, count_of, field.
  destruct (key column); simpl;
    repeat match goal with
           | |- context [?f <$> ?o] => destruct o; simpl
           end;
    rewrite ?app_nil_r, ?standardNumber_format_N2Q; done.
Qed.

End ScreenTheory.

(** *** Examples of the further properties *)

Lemma parsedHandles_clean_witness :
  js "@esa" ∈ parsedHandles (js "@nasa, @esa  @nasa")
  ∧ js "@esa" ≠ []
  ∧ Forall (fun c => isSeparator c = false) (js "@esa").
Proof.
  assert (js "@esa" ∈ parsedHandles (js "@nasa, @esa  @nasa")) as Hin.
  { vm_compute. right. left. }
  split; [exact Hin|].
  exact (parsedHandles_clean _ _ Hin).
Defined.

Lemma parsedHandles_join_witness :
  isSeparator 32 = true
  ∧ Forall (fun h => h ≠ [] ∧ Forall (fun c => isSeparator c = false) h)
      [js "@nasa"; js "@esa"]
  ∧ parsedHandles (join [32] [js "@nasa"; js "@esa"]) =
      [js "@nasa"; js "@esa"].
Proof.
  assert (Forall (fun h => h ≠ [] ∧ Forall (fun c => isSeparator c = false) h)
            [js "@nasa"; js "@esa"]) as Hall.
  { repeat (constructor; [split; [done|by repeat constructor]|]).
    constructor. }
  split; [reflexivity|]. split; [exact Hall|].
  exact (parsedHandles_join 32 _ eq_refl Hall).
Defined.

Lemma error_entries_witness :
  (∀ h reason, sample_resolver h = rejected reason →
     isSocialbladeError reason = true → message reason ≠ [])
  ∧ respond decimal sample_resolver
      (mkRequest (Some (JArray sample_items))) =
      Some (mkResponse 200
              (ResultBody
                 (mkAnalyzeResponse [nasa]
                    [mkErrorEntry (js "42") (js "Account not found");
                     mkErrorEntry (js "@doesnotexist123456")
                       (js "Account not found")])))
  ∧ entry_message (mkErrorEntry (js "42") (js "Account not found")) ≠ [].
Proof.
  assert (∀ h reason, sample_resolver h = rejected reason →
            isSocialbladeError reason = true → message reason ≠ []) as Hmsg.
  { intros h reason. unfold sample_resolver. case_decide; [done|].
    by intros [= <-]. }
  assert (respond decimal sample_resolver
            (mkRequest (Some (JArray sample_items))) =
          Some (mkResponse 200
                  (ResultBody
                     (mkAnalyzeResponse [nasa]
                        [mkErrorEntry (js "42") (js "Account not found");
                         mkErrorEntry (js "@doesnotexist123456")
                           (js "Account not found")])))) as Hr
    by (by vm_compute).
  split; [exact Hmsg|]. split; [exact Hr|].
  apply (error_entries decimal sample_resolver _ _ _ Hmsg Hr eq_refl).
  simpl. by left.
Defined.


Lemma sortedRows_ordered_witness :
  sortedRows sample_toString codeUnitCompare
    (mkState [nasa; cern; esa] key_displayName asc) !! 0%nat = Some cern
  ∧ sortedRows sample_toString codeUnitCompare
      (mkState [nasa; cern; esa] key_displayName asc) !! 2%nat = Some nasa
  ∧ (0 < 2)%nat
  ∧ (compareRows sample_toString codeUnitCompare key_displayName asc
       cern nasa <= 0)%Q.
Proof.
  assert (sortedRows sample_toString codeUnitCompare
            (mkState [nasa; cern; esa] key_displayName asc) !! 0%nat
          = Some cern) as H0 by (by vm_compute).
  assert (sortedRows sample_toString codeUnitCompare
            (mkState [nasa; cern; esa] key_displayName asc) !! 2%nat
          = Some nasa) as H2 by (by vm_compute).
  assert (0 < 2)%nat as Hlt by lia.
  split; [exact H0|]. split; [exact H2|]. split; [exact Hlt|].
  exact (sortedRows_ordered sample_toString codeUnitCompare
           codeUnitCompare_antisym codeUnitCompare_trans
           key_displayName asc [nasa; cern; esa] 0 2 cern nasa H0 H2 Hlt).
Defined.

Lemma sortedRows_idempotent_witness :
  sortedRows sample_toString codeUnitCompare
    (mkState
       (sortedRows sample_toString codeUnitCompare
          (mkState [nasa; cern; esa] key_followers desc))
       key_followers desc) =
  sortedRows sample_toString codeUnitCompare
    (mkState [nasa; cern; esa] key_followers desc).
Proof.
  exact (sortedRows_idempotent sample_toString codeUnitCompare
           codeUnitCompare_antisym codeUnitCompare_trans
           key_followers desc [nasa; cern; esa]).
Defined.

Lemma sortedRows_stable_witness :
  filter (fun a => Qeq_bool (compareRows sample_toString codeUnitCompare
                               key_followers asc nasa a) 0 = true)
    (sortedRows sample_toString codeUnitCompare
       (mkState [cern; esa; nasa] key_followers desc)) =
  filter (fun a => Qeq_bool (compareRows sample_toString codeUnitCompare
                               key_followers asc nasa a) 0 = true)
    [cern; esa; nasa].
Proof.
  exact (sortedRows_stable sample_toString codeUnitCompare
           codeUnitCompare_antisym codeUnitCompare_trans
           key_followers desc [cern; esa; nasa] nasa).
Defined.

Lemma handleSort_reverses_witness :
  sortKey (mkState [nasa; cern; esa] key_displayName asc) =
    key (mkColumn key_displayName (js "Name") false)
  ∧ distinct_keys sample_toString codeUnitCompare key_displayName
      [nasa; cern; esa] = true
  ∧ sortedRows sample_toString codeUnitCompare
      (handleSort (mkColumn key_displayName (js "Name") false)
         (mkState [nasa; cern; esa] key_displayName asc)) =
    reverse (sortedRows sample_toString codeUnitCompare
               (mkState [nasa; cern; esa] key_displayName asc)).
Proof.
  assert (distinct_keys sample_toString codeUnitCompare key_displayName
            [nasa; cern; esa] = true) as Hd by (by vm_compute).
  split; [reflexivity|]. split; [exact Hd|].
  exact (proj1 (handleSort_reverses sample_toString codeUnitCompare
                  codeUnitCompare_antisym codeUnitCompare_trans
                  (mkColumn key_displayName (js "Name") false)
                  (mkState [nasa; cern; esa] key_displayName asc)
                  eq_refl Hd)).
Defined.

Lemma handleAnalyze_parsed_witness :
  parsedHandles (handlesInput sample_dashboard) ≠ []
  ∧ ∃ r d',
      respond decimal sample_resolver (analyzeRequest sample_dashboard) =
        Some r
      ∧ handleAnalyze (responded r) 1700000000000 sample_dashboard = Some d'
      ∧ (length (rows (view d')) + length (shownErrors d'))%nat =
          size (list_to_set (parsedHandles (handlesInput sample_dashboard))
                : gset jsstring).
Proof.
  assert (parsedHandles (handlesInput sample_dashboard) ≠ []) as Hne
    by (by vm_compute).
  split; [exact Hne|].
  destruct (handleAnalyze_parsed decimal sample_resolver 1700000000000
              sample_dashboard Hne) as (r & d' & Hr & Hd & _ & _ & Hlen & _).
  exists r, d'. split; [exact Hr|]. split; [exact Hd|exact Hlen].
Defined.

Lemma exportCsv_round_trip_witness :
  ∃ csv,
    exportCsv sample_toString (mkState [nasa; cern] key_followers desc) =
      Some csv
    ∧ Forall (fun row =>
                Forall (fun column =>
                          bareCarriageReturn
                            (formatCellForExport sample_toString row column) =
                            false) columns) [nasa; cern]
    ∧ csvParse csv =
        map label columns
        :: map (fun row =>
                  map (formatCellForExport sample_toString row) columns)
             [nasa; cern].
Proof.
  assert (Forall (fun row =>
                    Forall (fun column =>
                              bareCarriageReturn
                                (formatCellForExport sample_toString row
                                   column) = false) columns) [nasa; cern])
    as Hbare.
  { repeat (constructor;
              [repeat (constructor; [by vm_compute|]); constructor|]).
    constructor. }
  eexists. split; [reflexivity|]. split; [exact Hbare|].
  apply (exportCsv_round_trip sample_toString
           (mkState [nasa; cern] key_followers desc)).
  - reflexivity.
  - exact Hbare.
Defined.

(** A name with a carriage return and nothing that calls for quotes is
    written as it is, and the reader takes the carriage return for the end
    of the record. *)
Lemma bare_carriage_return_splits :
  let row := mkMetrics [97; carriageReturn; 98] (js "ab") None None None
               None None None in
  bareCarriageReturn
    (formatCellForExport sample_toString row
       (mkColumn key_displayName (js "Name") false)) = true
  ∧ csvField [97; carriageReturn; 98] = [97; carriageReturn; 98]
  ∧ ∃ csv,
      exportCsv sample_toString (mkState [row] key_followers desc) = Some csv
      ∧ length (csvParse csv) = 3%nat.
Proof.
  cbv zeta. split; [by vm_compute|]. split; [by vm_compute|].
  eexists. split; [reflexivity|]. by vm_compute.
Qed.

Lemma formatCell_export_witness :
  (1000000 < 2 ^ 53)
  ∧ formatCell sample_toString sample_toString nasa
      (mkColumn key_followers (js "Followers") true) = js "1000000"
  ∧ formatCellForExport sample_toString nasa
      (mkColumn key_followers (js "Followers") true) = js "1,000,000".
Proof.
  assert (1000000 < 2 ^ 53) as Hn by (by vm_compute).
  pose proof (formatCell_export sample_toString sample_toString nasa
                (mkColumn key_followers (js "Followers") true)) as [Hs He].
  split; [exact Hn|]. split.
  - rewrite Hs. by vm_compute.
  - rewrite (He Hn). by vm_compute.
Defined.

Lemma toFixed2_accuracy_witness :
  (Qabs (3456 # 1000) < inject_Z (10 ^ 21))%Q
  ∧ ∃ a b,
      toFixed2 sample_toString (3456 # 1000) = a ++ js "." ++ b
      ∧ length b = 2%nat.
Proof.
  assert (Qabs (3456 # 1000) < inject_Z (10 ^ 21))%Q as Hx by (by vm_compute).
  split; [exact Hx|].
  destruct (toFixed2_accuracy sample_toString (3456 # 1000) Hx)
    as (a & b & Hfmt & Hb & _).
  exists a, b. split; [exact Hfmt|exact Hb].
Defined.
